(** * vayu: the request dispatch core

    A shallow embedding of the dispatch core of the vayu web framework
    (router, middleware chain executor, request context and response
    writer), followed by the properties established about it.

    Conventions.
    - Go strings are byte strings: [string] (a list of [ascii]).
    - Go [int] status codes are [Z].
    - [map[string]string] is [gmap string string]; [map[string][]route]
      is [gmap string (list route)].  A nil map and an empty map read
      alike, both are [∅].
    - A nil function value is [None]. *)

From Stdlib Require Import ZArith Ascii String.
From stdpp Require Import gmap strings list fin_maps.

Open Scope string_scope.
Open Scope list_scope.

(** ** The parts of Go's [strings] package the router uses *)

Module Strings.

(** [strings.TrimLeft(s, string(c))] *)
Fixpoint TrimLeft (s : string) (c : ascii) : string :=
  match s with
  | EmptyString => EmptyString
  | String a r => if Ascii.eqb a c then TrimLeft r c else s
  end.

(** [strings.TrimRight(s, string(c))] *)
Fixpoint TrimRight (s : string) (c : ascii) : string :=
  match s with
  | EmptyString => EmptyString
  | String a r =>
      let r' := TrimRight r c in
      if Ascii.eqb a c && String.eqb r' EmptyString
      then EmptyString
      else String a r'
  end.

(** [strings.Trim(s, string(c))]: every leading and every trailing [c]
    is removed. *)
Definition Trim (s : string) (c : ascii) : string :=
  TrimRight (TrimLeft s c) c.

(** [strings.Split(s, string(sep))]: the pieces between the separators;
    the empty string splits into one empty piece. *)
Fixpoint Split (s : string) (sep : ascii) : list string :=
  match s with
  | EmptyString => [EmptyString]
  | String a r =>
      if Ascii.eqb a sep then EmptyString :: Split r sep
      else match Split r sep with
           | h :: t => String a h :: t
           | [] => [String a EmptyString]
           end
  end.

(** [strings.HasPrefix(s, p)] *)
Definition HasPrefix (s p : string) : bool := String.prefix p s.

(** The slice expression [s[1:]] *)
Definition from1 (s : string) : string :=
  match s with
  | EmptyString => EmptyString
  | String _ r => r
  end.

End Strings.

(** ** Status constants *)

(** Modelled from the spec: the file declaring the status constants is
    not part of the sources at hand.  The spec calls this one the fixed
    gateway timeout status; the value is the one of net/http. *)
Definition StatusGatewayTimeout : Z := 504.

(** Modelled from the spec: declared in the same missing file; the
    README of the repository gives [StatusNotFound] as 404. *)
Definition StatusNotFound : Z := 404.

(** ** response_writer.go *)

(** The embedded [http.ResponseWriter] is the transport's; it is
    represented by the calls forwarded to it, oldest first. *)
Inductive SinkCall : Type :=
| SinkWriteHeader (code : Z)
| SinkWrite (b : string).

Record ResponseWriter : Type := mkResponseWriter {
  inner : list SinkCall;
  written : bool;
  status : Z
}.

Definition NewResponseWriter (w : list SinkCall) : ResponseWriter :=
  {| inner := w; written := false; status := 0 |}.

Definition WriteHeader (w : ResponseWriter) (code : Z) : ResponseWriter :=
  {| inner := inner w ++ [SinkWriteHeader code];
     written := true;
     status := code |}.

Definition Write (w : ResponseWriter) (b : string) : ResponseWriter :=
  {| inner := inner w ++ [SinkWrite b];
     written := true;
     status := status w |}.

Definition Written (w : ResponseWriter) : bool := written w.

Definition Status (w : ResponseWriter) : Z := status w.

(** A call a collaborator can make on the writer. *)
Inductive WriterCall : Type :=
| CallWriteHeader (code : Z)
| CallWrite (b : string).

Definition apply_call (w : ResponseWriter) (c : WriterCall) : ResponseWriter :=
  match c with
  | CallWriteHeader code => WriteHeader w code
  | CallWrite b => Write w b
  end.

Definition apply_calls (w : ResponseWriter) (cs : list WriterCall) : ResponseWriter :=
  foldl apply_call w cs.

(** ** context.go *)

Record Context : Type := mkContext {
  Writer : ResponseWriter;
  Params : gmap string string;
  Stopped : bool;
  (** [Ctx.Done()] is closed *)
  Done : bool
}.

Definition Stop (c : Context) : Context :=
  {| Writer := Writer c; Params := Params c; Stopped := true; Done := Done c |}.

Definition with_Writer (c : Context) (w : ResponseWriter) : Context :=
  {| Writer := w; Params := Params c; Stopped := Stopped c; Done := Done c |}.

Definition with_Params (c : Context) (p : gmap string string) : Context :=
  {| Writer := Writer c; Params := p; Stopped := Stopped c; Done := Done c |}.

Definition with_Done (c : Context) : Context :=
  {| Writer := Writer c; Params := Params c; Stopped := Stopped c; Done := true |}.

(** ** Handlers

    A [HandlerFunc] is a Go function [func(c *Context, next NextFunc)] supplied
    by the user of the framework.  Its body is represented by what it
    does to the context, step by step: it returns, calls [next()], calls
    a method of the context, or branches on what it reads from the
    context.  [Mark] is a side effect outside the context (the tests
    append to a slice); [Elapse] is the instant, during the body, at which
    the cancellation signal fires.  Handlers use the context through its
    methods: they do not assign its fields, they return, and they do not
    panic. *)
Inductive HandlerFunc : Type :=
| Ret
| CallNext (k : HandlerFunc)
| CallStop (k : HandlerFunc)
| DoWriteHeader (code : Z) (k : HandlerFunc)
| DoWrite (b : string) (k : HandlerFunc)
| Mark (m : string) (k : HandlerFunc)
| Elapse (k : HandlerFunc)
| Inspect (k : Context -> HandlerFunc).

(** ** router.go *)

Record route : Type := mkRoute {
  pattern : string;
  handler : option HandlerFunc
}.

Record Router : Type := mkRouter {
  routes : gmap string (list route)
}.

(** [splitPath] of vayu.go *)
Definition splitPath (p : string) : list string :=
  let p := Strings.Trim p "/" in
  if String.eqb p EmptyString then [] else Strings.Split p "/".

(** The inner loop of [matchRoute], [for i := range patternParts]: [None]
    is [match = false]. *)
Fixpoint walkParts (patternParts pathParts : list string)
    (params : gmap string string) : option (gmap string string) :=
  match patternParts, pathParts with
  | pp :: patternParts', qq :: pathParts' =>
      if Strings.HasPrefix pp ":" then
        walkParts patternParts' pathParts' (<[Strings.from1 pp := qq]> params)
      else if negb (String.eqb pp qq) then None
      else walkParts patternParts' pathParts' params
  | _, _ => Some params
  end.

(** One turn of the outer loop of [matchRoute]: [None] is [continue]. *)
Definition matchPattern (pat path : string) : option (gmap string string) :=
  let patternParts := splitPath pat in
  let pathParts := splitPath path in
  if negb (length patternParts =? length pathParts)%nat then None
  else walkParts patternParts pathParts ∅.

(** The outer loop of [matchRoute], [for _, route := range routes]. *)
Fixpoint matchRoutes (rs : list route) (path : string)
    : option HandlerFunc * gmap string string :=
  match rs with
  | [] => (None, ∅)
  | rt :: rs' =>
      match matchPattern (pattern rt) path with
      | Some params => (handler rt, params)
      | None => matchRoutes rs' path
      end
  end.

Definition matchRoute (r : Router) (method path : string)
    : option HandlerFunc * gmap string string :=
  matchRoutes (default [] (routes r !! method)) path.

(** ** vayu.go: the application and the chain executor *)

(** What the core reads of the inbound [*http.Request]: its method, its
    URL path, and whether its own cancellation scope [r.Context()] is
    already done when [ServeHTTP] is entered.  The 30 second bound that
    [ServeHTTP] adds starts at dispatch, so at that instant the derived
    scope is done exactly when the request's own is. *)
Record Request : Type := mkRequest {
  Method : string;
  Path : string;
  Cancelled : bool
}.

(** The run of one request is observed through a log that the handlers
    cannot read or change: which function the core called, the markers of
    the handlers, and the instants at which the stopped flag was set and
    the cancellation signal fired. *)
Inductive Event : Type :=
| Invoked (i : nat)      (* exec called mws[i] *)
| InvokedNotFound        (* ServeHTTP called a.NotFoundHandler *)
| TransportNotFound      (* ServeHTTP called http.NotFound *)
| Marked (m : string)    (* a handler left a marker *)
| StopSet                (* a handler called c.Stop() *)
| Fired.                 (* the cancellation signal fired *)

Global Instance Event_eq_dec : EqDecision Event.
Proof. solve_decision. Defined.

Record State : Type := mkState {
  ctx : Context;
  trace : list Event
}.

Definition emit (e : Event) (s : State) : State :=
  {| ctx := ctx s; trace := trace s ++ [e] |}.

Definition on_ctx (f : Context -> Context) (s : State) : State :=
  {| ctx := f (ctx s); trace := trace s |}.

Definition on_writer (f : ResponseWriter -> ResponseWriter) (s : State) : State :=
  on_ctx (fun c => with_Writer c (f (Writer c))) s.

(** The cancellation signal fires (once). *)
Definition fire (s : State) : State :=
  if Done (ctx s) then s else emit Fired (on_ctx with_Done s).

(** Calling a handler [h(c, next)]. *)
Fixpoint call (h : HandlerFunc) (next : State -> State) (s : State) : State :=
  match h with
  | Ret => s
  | CallNext k => call k next (next s)
  | CallStop k => call k next (emit StopSet (on_ctx Stop s))
  | DoWriteHeader code k => call k next (on_writer (fun w => WriteHeader w code) s)
  | DoWrite b k => call k next (on_writer (fun w => Write w b) s)
  | Mark m k => call k next (emit (Marked m) s)
  | Elapse k => call k next (fire s)
  | Inspect k => call (k (ctx s)) next s
  end.

(** The closure [exec] of [ServeHTTP], on the part [rest] of [mws] that
    starts at index [i]. *)
Fixpoint exec_from (rest : list HandlerFunc) (i : nat) (s : State) : State :=
  if Done (ctx s) then
    on_writer (fun w => WriteHeader w StatusGatewayTimeout) s
  else
    match rest with
    | [] => s
    | h :: rest' =>
        if negb (Stopped (ctx s))
        then call h (exec_from rest' (S i)) (emit (Invoked i) s)
        else s
    end.

Definition exec (mws : list HandlerFunc) (i : nat) (s : State) : State :=
  exec_from (drop i mws) i s.

Record App : Type := mkApp {
  router : Router;
  middleware : list HandlerFunc;
  NotFoundHandler : option HandlerFunc
}.

(** The default 404 handler installed by [New].  A failed write is only
    logged there, which leaves the context as it is. *)
Definition defaultNotFound : HandlerFunc :=
  DoWriteHeader StatusNotFound (DoWrite "404 Not Found" Ret).

Definition New : App :=
  {| router := {| routes := ∅ |};
     middleware := [];
     NotFoundHandler := Some defaultNotFound |}.

Definition Use (a : App) (mw : HandlerFunc) : App :=
  {| router := router a;
     middleware := middleware a ++ [mw];
     NotFoundHandler := NotFoundHandler a |}.

Definition addRoute (a : App) (method path : string) (h : option HandlerFunc) : App :=
  {| router :=
       {| routes :=
            <[method := (default [] (routes (router a) !! method)
                           ++ [{| pattern := path; handler := h |}])%list]>
              (routes (router a)) |};
     middleware := middleware a;
     NotFoundHandler := NotFoundHandler a |}.

Definition GET (a : App) (path : string) (h : HandlerFunc) : App :=
  addRoute a "GET" path (Some h).

Definition POST (a : App) (path : string) (h : HandlerFunc) : App :=
  addRoute a "POST" path (Some h).

Definition SetNotFoundHandler (a : App) (h : option HandlerFunc) : App :=
  {| router := router a;
     middleware := middleware a;
     NotFoundHandler := h |}.

(** [http.NotFound(w, r)] of net/http, called on the transport's writer
    and not on the wrapper: status 404 and a fixed one-line body. *)
Definition httpNotFound (s : State) : State :=
  on_ctx (fun c =>
    with_Writer c
      {| inner := inner (Writer c)
                    ++ [SinkWriteHeader 404;
                        SinkWrite ("404 page not found" +:+ String (ascii_of_nat 10) EmptyString)];
         written := written (Writer c);
         status := status (Writer c) |}) s.

(** The context [ServeHTTP] builds for a request. *)
Definition newContext (w : list SinkCall) (r : Request) : State :=
  {| ctx := {| Writer := NewResponseWriter w;
               Params := ∅;
               Stopped := false;
               Done := Cancelled r |};
     trace := if Cancelled r then [Fired] else [] |}.

Definition ServeHTTP (a : App) (w : list SinkCall) (r : Request) : State :=
  let s := newContext w r in
  match matchRoute (router a) (Method r) (Path r) with
  | (None, _) =>
      match NotFoundHandler a with
      | Some nf => call nf (fun s' => s') (emit InvokedNotFound s)
      | None => httpNotFound (emit TransportNotFound s)
      end
  | (Some h, params) =>
      let s := on_ctx (fun c => with_Params c params) s in
      let mws := middleware a ++ [h] in
      exec mws 0 s
  end.

(** The calls forwarded to the transport by a writer call. *)
Definition forwarded (c : WriterCall) : SinkCall :=
  match c with
  | CallWriteHeader code => SinkWriteHeader code
  | CallWrite b => SinkWrite b
  end.

(** The code of the most recent status-setting call of [cs], if any. *)
Fixpoint lastCode (cs : list WriterCall) : option Z :=
  match cs with
  | [] => None
  | c :: cs' =>
      match lastCode cs', c with
      | Some code, _ => Some code
      | None, CallWriteHeader code => Some code
      | None, CallWrite _ => None
      end
  end.

(** ** The matcher in the words of its description

    A pattern segment is a parameter when it begins with the marker; a
    parameter agrees with any request segment and a literal only with
    itself; walking the segments pairwise binds, in order, every
    parameter's name to the request segment at its place. *)

Definition isParam (pp : string) : bool := Strings.HasPrefix pp ":".

Definition paramName (pp : string) : string := Strings.from1 pp.

Definition segmentAgrees (pq : string * string) : bool :=
  isParam pq.1 || String.eqb pq.1 pq.2.

Definition bindSegment (m : gmap string string) (pq : string * string)
    : gmap string string :=
  if isParam pq.1 then <[paramName pq.1 := pq.2]> m else m.

Definition bindAll (ps qs : list string) : gmap string string :=
  foldl bindSegment ∅ (zip ps qs).

(** ** Reading the log *)

(** The events at which the core calls a handler. *)
Definition is_invocation (e : Event) : bool :=
  match e with
  | Invoked _ | InvokedNotFound => true
  | _ => false
  end.

(** No handler is called after an occurrence of [e] in the log [t]. *)
Definition never_after (e : Event) (t : list Event) : Prop :=
  ∀ t1 t2 ev, t = t1 ++ e :: t2 → ev ∈ t2 → is_invocation ev = false.

(** The calls of handlers by the core, in order. *)
Definition invocations (t : list Event) : list Event :=
  List.filter is_invocation t.

(** The stopped flag follows the log: once [StopSet] is logged the flag
    is set, and no handler was called after it. *)
Definition stop_respected (s : State) : Prop :=
  (StopSet ∈ trace s → Stopped (ctx s) = true) ∧ never_after StopSet (trace s).

(** The cancellation signal follows the log in the same way. *)
Definition signal_respected (s : State) : Prop :=
  (Fired ∈ trace s → Done (ctx s) = true) ∧ never_after Fired (trace s).

(** How many times a terminal handler ran: the not-found handler, or the
    matched route's handler, which is the last of the [n + 1] functions of
    the chain. *)
Definition terminal_runs (n : nat) (t : list Event) : nat :=
  count_occ Event_eq_dec t (Invoked n) + count_occ Event_eq_dec t InvokedNotFound.

(** The markers the handlers left, in order. *)
Definition markers (t : list Event) : list string :=
  omap (λ e, match e with Marked m => Some m | _ => None end) t.

(** The applications that setup code builds from [New] without assigning
    the not-found handler. *)
Inductive SetupStep : Type :=
| StepUse (mw : HandlerFunc)
| StepRoute (method path : string) (h : option HandlerFunc).

Definition setup_step (a : App) (st : SetupStep) : App :=
  match st with
  | StepUse mw => Use a mw
  | StepRoute method path h => addRoute a method path h
  end.

Definition setup (steps : list SetupStep) : App := foldl setup_step New steps.

(** ** Shapes of handlers *)

(** A handler that never calls its continuation. *)
Inductive no_next : HandlerFunc → Prop :=
| no_next_Ret : no_next Ret
| no_next_Stop k : no_next k → no_next (CallStop k)
| no_next_WriteHeader code k : no_next k → no_next (DoWriteHeader code k)
| no_next_Write b k : no_next k → no_next (DoWrite b k)
| no_next_Mark m k : no_next k → no_next (Mark m k)
| no_next_Elapse k : no_next k → no_next (Elapse k)
| no_next_Inspect k : (∀ c, no_next (k c)) → no_next (Inspect k).

(** A handler that, whatever it reads, calls its continuation exactly
    once, and before that call neither sets the stopped flag nor sees the
    cancellation signal fire. *)
Inductive passes_on : HandlerFunc → Prop :=
| passes_on_Next k : no_next k → passes_on (CallNext k)
| passes_on_WriteHeader code k : passes_on k → passes_on (DoWriteHeader code k)
| passes_on_Write b k : passes_on k → passes_on (DoWrite b k)
| passes_on_Mark m k : passes_on k → passes_on (Mark m k)
| passes_on_Inspect k : (∀ c, passes_on (k c)) → passes_on (Inspect k).

(** The middleware of the ordering test: a marker, the continuation,
    a marker. *)
Definition around (ba : string * string) : HandlerFunc :=
  Mark ba.1 (CallNext (Mark ba.2 Ret)).

(** A handler body that makes the writer calls [cs] and returns. *)
Fixpoint respond (cs : list WriterCall) : HandlerFunc :=
  match cs with
  | [] => Ret
  | CallWriteHeader code :: cs' => DoWriteHeader code (respond cs')
  | CallWrite b :: cs' => DoWrite b (respond cs')
  end.

(** The log of a chain of [around] middleware that ends in a handler
    leaving the marker [hm], started at index [i]. *)
Fixpoint nested (i : nat) (bas : list (string * string)) (hm : string) : list Event :=
  match bas with
  | [] => [Invoked i; Marked hm]
  | ba :: bas' =>
      [Invoked i; Marked ba.1] ++ nested (S i) bas' hm ++ [Marked ba.2]
  end.

(** An application whose middleware answers by itself and never calls
    its continuation. *)
Definition app_short_circuit : App :=
  GET (Use New (DoWriteHeader 401 Ret)) "/private" (Mark "handler" Ret).

(** An application whose middleware calls its continuation twice. *)
Definition app_twice : App :=
  GET (Use New (CallNext (CallNext Ret))) "/private" (Mark "handler" Ret).

(** ** vayu.go: the other registration methods *)

Definition PUT (a : App) (path : string) (h : HandlerFunc) : App :=
  addRoute a "PUT" path (Some h).

Definition DELETE (a : App) (path : string) (h : HandlerFunc) : App :=
  addRoute a "DELETE" path (Some h).

Definition PATCH (a : App) (path : string) (h : HandlerFunc) : App :=
  addRoute a "PATCH" path (Some h).

Definition OPTIONS (a : App) (path : string) (h : HandlerFunc) : App :=
  addRoute a "OPTIONS" path (Some h).

Definition HEAD (a : App) (path : string) (h : HandlerFunc) : App :=
  addRoute a "HEAD" path (Some h).

(** The seven registration methods with the method string each uses. *)
Definition verbs : list (string * (App → string → HandlerFunc → App)) :=
  [("GET", GET); ("POST", POST); ("PUT", PUT); ("DELETE", DELETE);
   ("PATCH", PATCH); ("OPTIONS", OPTIONS); ("HEAD", HEAD)].

(** ** middleware.go *)

(** The closure [exec] of [WithMiddleware], on the part [rest] of [full]
    that starts at its index: past the end it calls the continuation the
    wrapper itself was given.  It reads neither the stopped flag nor the
    cancellation signal. *)
Fixpoint WithMiddleware_exec (rest : list HandlerFunc) (next : State → State)
    (s : State) : State :=
  match rest with
  | [] => next s
  | h :: rest' => call h (WithMiddleware_exec rest' next) s
  end.

(** Calling the function [WithMiddleware(handler, middlewares...)]
    returns. *)
Definition WithMiddleware_call (handler : HandlerFunc) (middlewares : list HandlerFunc)
    (next : State → State) (s : State) : State :=
  let full := middlewares ++ [handler] in
  WithMiddleware_exec full next s.

(** [u] and then [v]: the body [u] with [v] in place of its returns. *)
Fixpoint andThen (u v : HandlerFunc) : HandlerFunc :=
  match u with
  | Ret => v
  | CallNext k => CallNext (andThen k v)
  | CallStop k => CallStop (andThen k v)
  | DoWriteHeader code k => DoWriteHeader code (andThen k v)
  | DoWrite b k => DoWrite b (andThen k v)
  | Mark m k => Mark m (andThen k v)
  | Elapse k => Elapse (andThen k v)
  | Inspect k => Inspect (λ c, andThen (k c) v)
  end.

(** The body [m] given the body [rest] as its continuation. *)
Fixpoint plug (m rest : HandlerFunc) : HandlerFunc :=
  match m with
  | Ret => Ret
  | CallNext k => andThen rest (plug k rest)
  | CallStop k => CallStop (plug k rest)
  | DoWriteHeader code k => DoWriteHeader code (plug k rest)
  | DoWrite b k => DoWrite b (plug k rest)
  | Mark m' k => Mark m' (plug k rest)
  | Elapse k => Elapse (plug k rest)
  | Inspect k => Inspect (λ c, plug (k c) rest)
  end.

(** The function [WithMiddleware] returns, as a handler body: each
    function of [full] continued by the next, the last by the wrapper's own
    continuation. *)
Definition WithMiddleware (handler : HandlerFunc) (middlewares : list HandlerFunc)
    : HandlerFunc :=
  foldr plug (CallNext Ret) (middlewares ++ [handler]).

(** ** group.go *)

(** The fields [prefix] and [app] of the source. *)
Record Group : Type := mkGroup {
  Group_prefix : string;
  Group_app : App
}.

(** [(a *App) Group(prefix)] *)
Definition App_Group (a : App) (p : string) : Group :=
  {| Group_prefix := p; Group_app := a |}.

(** The function [Group.Use] hands to [App.Use], for the request path
    [path] it reads from [c.Request.URL.Path]: the group's middleware
    under the prefix, the continuation alone elsewhere. *)
Definition groupGuard (p : string) (mw : HandlerFunc) (path : string) : HandlerFunc :=
  if Strings.HasPrefix path p then mw else CallNext Ret.

(** [Group.Use], seen from a request for [path]. *)
Definition Group_Use (g : Group) (mw : HandlerFunc) (path : string) : Group :=
  {| Group_prefix := Group_prefix g;
     Group_app := Use (Group_app g) (groupGuard (Group_prefix g) mw path) |}.

Definition Group_GET (g : Group) (path : string) (h : HandlerFunc) : Group :=
  {| Group_prefix := Group_prefix g;
     Group_app := GET (Group_app g) (Group_prefix g +:+ path) h |}.

Definition Group_POST (g : Group) (path : string) (h : HandlerFunc) : Group :=
  {| Group_prefix := Group_prefix g;
     Group_app := POST (Group_app g) (Group_prefix g +:+ path) h |}.

(** ** context_extension.go: the request-scoped store

    The field [store] is a [map[string]interface{}] that is nil until
    the first [Set]: [None] is the nil map.  [Get] returns the value and
    whether the key is present, here an [option]. *)

Definition Context_Set {V : Type} (store : option (gmap string V))
    (key : string) (value : V) : option (gmap string V) :=
  Some (<[key := value]> (default ∅ store)).

Definition Context_Get {V : Type} (store : option (gmap string V))
    (key : string) : option V :=
  match store with
  | None => None
  | Some m => m !! key
  end.

(** ** context.go, context_extension.go, response_helpers.go: responses

    These methods also set a header on the transport's writer, which is
    not part of the state of the wrapper. *)

(** Modelled from the spec: declared in the missing file of status
    constants; the value is the one of net/http, which [Recovery] writes
    as a literal for the same response. *)
Definition StatusInternalServerError : Z := 500.

(** Modelled from the spec: declared in the missing file of status
    constants; the value is the one of net/http. *)
Definition StatusNoContent : Z := 204.

(** [c.JSON(code, obj)].  [encoded] is what encoding/json makes of [obj]:
    the bytes its encoder passes to the writer in one [Write], or [None]
    when [obj] cannot be encoded, in which case it writes nothing. *)
Definition Context_JSON (c : Context) (code : Z) (encoded : option string) : Context :=
  let w := WriteHeader (Writer c) code in
  with_Writer c (match encoded with
                 | Some b => Write w b
                 | None => w
                 end).

(** [c.Send(code, text)] *)
Definition Context_Send (c : Context) (code : Z) (text : string) : Context :=
  with_Writer c (Write (WriteHeader (Writer c) code) text).

(** [c.HTML(code, html)] *)
Definition Context_HTML (c : Context) (code : Z) (html : string) : Context :=
  with_Writer c (Write (WriteHeader (Writer c) code) html).

(** [c.Status(code)] *)
Definition Context_Status (c : Context) (code : Z) : Context :=
  with_Writer c (WriteHeader (Writer c) code).

(** [c.NoContent()] *)
Definition Context_NoContent (c : Context) : Context :=
  with_Writer c (WriteHeader (Writer c) StatusNoContent).

(** [c.InternalServerError(message)]; [enc message] is the encoding of
    the one-entry map it sends, which always succeeds. *)
Definition InternalServerError (enc : string → string) (c : Context)
    (message : string) : Context :=
  Context_JSON c StatusInternalServerError (Some (enc message)).

(** [DefaultErrorHandler] of error_handler.go; its log line is outside
    the context. *)
Definition DefaultErrorHandler (enc : string → string) (c : Context) : Context :=
  if negb (Written (Writer c))
  then InternalServerError enc c "An unexpected error occurred"
  else c.

(** ** What a client and the handlers can observe of a run *)

(** Two states agree on the context and on the markers left. *)
Definition same_obs (s1 s2 : State) : Prop :=
  ctx s1 = ctx s2 ∧ markers (trace s1) = markers (trace s2).

(** A handler that neither sets the stopped flag nor sees the
    cancellation signal fire. *)
Inductive quiet : HandlerFunc → Prop :=
| quiet_Ret : quiet Ret
| quiet_Next k : quiet k → quiet (CallNext k)
| quiet_WriteHeader code k : quiet k → quiet (DoWriteHeader code k)
| quiet_Write b k : quiet k → quiet (DoWrite b k)
| quiet_Mark m k : quiet k → quiet (Mark m k)
| quiet_Inspect k : (∀ c, quiet (k c)) → quiet (Inspect k).

(** The byte [c] occurs in [s]. *)
Fixpoint contains_char (c : ascii) (s : string) : bool :=
  match s with
  | EmptyString => false
  | String a r => Ascii.eqb a c || contains_char c r
  end.

(** [s] consists of the byte [c] only. *)
Fixpoint only_char (c : ascii) (s : string) : bool :=
  match s with
  | EmptyString => true
  | String a r => Ascii.eqb a c && only_char c r
  end.

(** Some route of [rs] has a pattern that matches [path]. *)
Definition anyMatches (rs : list route) (path : string) : bool :=
  existsb (λ rt, bool_decide (is_Some (matchPattern (pattern rt) path))) rs.

(** Every call of a chain function logged in [s] was already logged in
    [t0] or has an index of at most [bound]. *)
Definition calls_within (t0 : list Event) (bound : nat) (s : State) : Prop :=
  ∀ j, Invoked j ∈ trace s → Invoked j ∈ t0 ∨ (j ≤ bound)%nat.

(** The middleware of a list of setup steps, in order. *)
Definition steps_middleware (steps : list SetupStep) : list HandlerFunc :=
  omap (λ st, match st with StepUse mw => Some mw | _ => None end) steps.

(** The routes a list of setup steps registers under [method], in order. *)
Definition steps_routes (method : string) (steps : list SetupStep) : list route :=
  omap (λ st, match st with
              | StepRoute m p h =>
                  if decide (m = method)
                  then Some {| pattern := p; handler := h |}
                  else None
              | StepUse _ => None
              end) steps.

(** * Worked examples *)

Example splitPath_users : splitPath "/users/42" = ["users"; "42"].
Proof. reflexivity. Qed.

Example splitPath_root : splitPath "/" = [].
Proof. reflexivity. Qed.

Example splitPath_inner : splitPath "//a//b//" = ["a"; EmptyString; "b"].
Proof. reflexivity. Qed.

Example matchPattern_users :
  matchPattern "/users/:id" "/users/42" = Some {[ "id" := "42" ]}.
Proof. vm_compute. reflexivity. Qed.

(** A dispatch through two middleware, as in the ordering test. *)
Example dispatch_in_order :
  trace (ServeHTTP
           (GET (Use (Use New (around ("before_mw1", "after_mw1")))
                     (around ("before_mw2", "after_mw2")))
                "/order-test" (Mark "handler" Ret))
           [] {| Method := "GET"; Path := "/order-test"; Cancelled := false |})
  = [Invoked 0; Marked "before_mw1"; Invoked 1; Marked "before_mw2";
     Invoked 2; Marked "handler"; Marked "after_mw2"; Marked "after_mw1"].
Proof. vm_compute. reflexivity. Qed.

(** The signal fires while the first middleware runs: the next step
    aborts with the timeout status, and the middleware, still running,
    goes on after its continuation has returned. *)
Example dispatch_signal_fires_in_flight :
  let s := ServeHTTP
             (GET (Use New (Elapse (CallNext (Mark "after" (DoWriteHeader 200 Ret)))))
                  "/slow" (Mark "handler" Ret))
             [] {| Method := "GET"; Path := "/slow"; Cancelled := false |} in
  trace s = [Invoked 0; Fired; Marked "after"] ∧
  inner (Writer (ctx s)) = [SinkWriteHeader 504; SinkWriteHeader 200] ∧
  Status (Writer (ctx s)) = 200%Z.
Proof. vm_compute. repeat split; reflexivity. Qed.

(** Without a not-found handler the transport answers, past the
    wrapper. *)
Example dispatch_transport_not_found :
  let s := ServeHTTP (SetNotFoundHandler New None)
             [] {| Method := "GET"; Path := "/missing"; Cancelled := false |} in
  trace s = [TransportNotFound] ∧ Written (Writer (ctx s)) = false.
Proof. vm_compute. repeat split; reflexivity. Qed.

(** * Properties of the response writer *)

Section ResponseWriterFacts.

Implicit Types (w : ResponseWriter) (c : WriterCall) (cs : list WriterCall).

Lemma apply_call_written w c : Written (apply_call w c) = true.
Proof. by destruct c. Qed.

Lemma apply_calls_snoc w cs c :
  apply_calls w (cs ++ [c]) = apply_call (apply_calls w cs) c.
Proof. unfold apply_calls. by rewrite foldl_app. Qed.

Lemma apply_calls_written_stays w cs :
  Written w = true → Written (apply_calls w cs) = true.
Proof.
  revert w. induction cs as [|c cs IH]; intros w Hw; [done|].
  cbn. apply IH, apply_call_written.
Qed.

Lemma apply_calls_status w cs :
  Status (apply_calls w cs) = default (Status w) (lastCode cs).
Proof.
  revert w. induction cs as [|c cs IH]; intros w; [done|].
  cbn [apply_calls foldl lastCode]. fold (apply_calls (apply_call w c) cs).
  rewrite IH. destruct (lastCode cs); [done|]. by destruct c.
Qed.

Lemma apply_calls_inner w cs :
  inner (apply_calls w cs) = inner w ++ map forwarded cs.
Proof.
  revert w. induction cs as [|c cs IH]; intros w.
  - cbn. by rewrite app_nil_r.
  - cbn [apply_calls foldl map]. fold (apply_calls (apply_call w c) cs).
    rewrite IH. destruct c; cbn; by rewrite <- app_assoc.
Qed.

End ResponseWriterFacts.

(** C9.  The [written] flag of a fresh writer is false; after one
    [WriteHeader] or [Write] call it is true, and it is still true after
    any further sequence of [WriteHeader] and [Write] calls. *)
Theorem written_latches :
  (∀ w, Written (NewResponseWriter w) = false) ∧
  (∀ w c cs, Written (apply_calls w (c :: cs)) = true).
Proof.
  split; [done|].
  intros w c cs. cbn. apply apply_calls_written_stays, apply_call_written.
Qed.

(** C2, as stated, fails: a second status-setting call changes the
    status the writer reports. *)
Lemma second_WriteHeader_overwrites :
  let w1 := WriteHeader (NewResponseWriter []) 200 in
  Status w1 = 200%Z ∧ Status (WriteHeader w1 500) ≠ Status w1.
Proof. split; [reflexivity | discriminate]. Qed.

(** C2, amended.  The first status-setting call on a fresh writer sets
    [written], records its code and is the first call the transport
    receives.  Afterwards [written] stays set and every call is
    forwarded in order; a body write leaves the recorded status as it
    is, a status-setting call replaces it by its own code, so that the
    writer reports the code of the most recent status-setting call. *)
Theorem status_follows_last_WriteHeader :
  (∀ t code,
      let w := WriteHeader (NewResponseWriter t) code in
      Written w = true ∧ Status w = code ∧ inner w = t ++ [SinkWriteHeader code]) ∧
  (∀ w b, Status (Write w b) = Status w ∧ Written (Write w b) = true) ∧
  (∀ w code, Status (WriteHeader w code) = code ∧ Written (WriteHeader w code) = true) ∧
  (∀ w cs,
      Status (apply_calls w cs) = default (Status w) (lastCode cs) ∧
      inner (apply_calls w cs) = inner w ++ map forwarded cs).
Proof.
  repeat split.
  - apply apply_calls_status.
  - apply apply_calls_inner.
Qed.

(** * Properties of the path matcher *)

Section TrimFacts.

Variable c : ascii.

Lemma append_empty (s : string) : EmptyString +:+ s = s.
Proof. reflexivity. Qed.

Lemma append_cons a (r s : string) : String a r +:+ s = String a (r +:+ s).
Proof. reflexivity. Qed.

Lemma TrimRight_snoc s :
  Strings.TrimRight (s +:+ String c EmptyString) c = Strings.TrimRight s c.
Proof.
  induction s as [|a r IH]; rewrite ?append_empty, ?append_cons;
    cbn [Strings.TrimRight].
  - by rewrite Ascii.eqb_refl.
  - by rewrite IH.
Qed.

Lemma TrimLeft_snoc s :
  Strings.TrimLeft (s +:+ String c EmptyString) c
    = Strings.TrimLeft s c +:+ String c EmptyString
  ∨ (Strings.TrimLeft (s +:+ String c EmptyString) c = EmptyString
     ∧ Strings.TrimLeft s c = EmptyString).
Proof.
  induction s as [|a r IH]; rewrite ?append_empty, ?append_cons;
    cbn [Strings.TrimLeft].
  - right. by rewrite Ascii.eqb_refl.
  - destruct (Ascii.eqb a c); [exact IH | by left].
Qed.

Lemma Trim_snoc s :
  Strings.Trim (s +:+ String c EmptyString) c = Strings.Trim s c.
Proof.
  unfold Strings.Trim.
  destruct (TrimLeft_snoc s) as [-> | [-> ->]]; [apply TrimRight_snoc | done].
Qed.

End TrimFacts.

Lemma splitPath_trailing_slash p : splitPath (p +:+ "/") = splitPath p.
Proof. unfold splitPath. by rewrite Trim_snoc. Qed.

Lemma matchPattern_trailing_slash pat path :
  matchPattern pat (path +:+ "/") = matchPattern pat path.
Proof. unfold matchPattern. by rewrite splitPath_trailing_slash. Qed.

Section WalkFacts.

Implicit Types (ps qs : list string) (m : gmap string string).

(** The loop computes what the description says. *)
Lemma walkParts_spec ps qs m :
  length ps = length qs →
  walkParts ps qs m =
    if forallb segmentAgrees (zip ps qs)
    then Some (foldl bindSegment m (zip ps qs))
    else None.
Proof.
  revert qs m. induction ps as [|p ps IH]; intros [|q qs] m Hlen; try done.
  injection Hlen as Hlen.
  cbn [walkParts zip zip_with forallb foldl].
  unfold segmentAgrees at 1, bindSegment at 2, isParam. cbn [fst snd].
  destruct (Strings.HasPrefix p ":") eqn:Hp; cbn [orb].
  - by rewrite IH.
  - destruct (String.eqb p q); cbn [negb andb]; [by rewrite IH | done].
Qed.

Lemma forallb_segmentAgrees ps qs :
  forallb segmentAgrees (zip ps qs) = true ↔
  ∀ i p q, ps !! i = Some p → qs !! i = Some q → isParam p = false → p = q.
Proof.
  revert qs. induction ps as [|p ps IH]; intros qs.
  - cbn. split; [intros _ i p q Hp; by destruct i | done].
  - destruct qs as [|q qs].
    { cbn. split; [intros _ i p' q' _ Hq; by destruct i | done]. }
    cbn [zip zip_with forallb]. rewrite andb_true_iff, IH.
    unfold segmentAgrees at 1. cbn [fst snd]. split.
    + intros [Hhd Htl] [|i] p' q' Hp' Hq' Hlit; simplify_eq/=.
      * rewrite Hlit in Hhd. by apply String.eqb_eq in Hhd.
      * eauto.
    + intros H. split.
      * destruct (isParam p) eqn:Hp; [done|]. cbn.
        apply String.eqb_eq, (H 0 p q); done.
      * intros i p' q' Hp' Hq'. apply (H (S i)); done.
Qed.

(** A name no parameter of [ps] carries is left as it was. *)
Lemma foldl_bindSegment_other ps qs m k :
  (∀ p, p ∈ ps → isParam p = true → paramName p ≠ k) →
  foldl bindSegment m (zip ps qs) !! k = m !! k.
Proof.
  revert qs m. induction ps as [|p ps IH]; intros [|q qs] m Hk; try done.
  cbn [zip zip_with foldl]. rewrite IH.
  - unfold bindSegment. cbn [fst snd].
    destruct (isParam p) eqn:Hp; [|done].
    rewrite lookup_insert_ne; [done|]. apply Hk; [left | done].
  - intros p' Hin. apply Hk. by right.
Qed.

(** The parameter at place [i] reads the request segment at place
    [i], unless a later parameter carries the same name. *)
Lemma foldl_bindSegment_at ps qs m i p q :
  ps !! i = Some p → qs !! i = Some q → isParam p = true →
  (∀ j p', i < j → ps !! j = Some p' → isParam p' = true →
           paramName p' ≠ paramName p) →
  foldl bindSegment m (zip ps qs) !! paramName p = Some q.
Proof.
  revert qs m i. induction ps as [|p0 ps IH]; intros [|q0 qs] m i Hp Hq Hpar Hlast;
    try done.
  destruct i as [|i]; simplify_eq/=.
  - rewrite foldl_bindSegment_other.
    + unfold bindSegment. cbn [fst snd]. rewrite Hpar. apply lookup_insert_eq.
    + intros p' Hin Hp'. apply list_elem_of_lookup in Hin as [j Hj].
      apply (Hlast (S j) p'); [lia | done | done].
  - apply (IH qs _ i); try done.
    intros j p' Hij Hj. apply (Hlast (S j) p'); [lia | done].
Qed.

(** Every binding of the result comes from a parameter of the pattern
    and the request segment at its place, or was there before. *)
Lemma foldl_bindSegment_origin ps qs m k v :
  foldl bindSegment m (zip ps qs) !! k = Some v →
  m !! k = Some v ∨
  ∃ i p, ps !! i = Some p ∧ qs !! i = Some v ∧ isParam p = true ∧ paramName p = k.
Proof.
  revert qs m. induction ps as [|p ps IH]; intros [|q qs] m H; try (by left).
  cbn [zip zip_with foldl] in H. apply IH in H as [H | (i & p' & ? & ? & ? & ?)].
  - unfold bindSegment in H. cbn [fst snd] in H.
    destruct (isParam p) eqn:Hp; [|by left].
    destruct (decide (paramName p = k)) as [<-|Hne].
    + rewrite lookup_insert_eq in H. simplify_eq.
      right. by exists 0, p.
    + rewrite lookup_insert_ne in H by done. by left.
  - right. by exists (S i), p'.
Qed.

End WalkFacts.

Lemma matchPattern_spec pat path :
  length (splitPath pat) = length (splitPath path) →
  matchPattern pat path =
    if forallb segmentAgrees (zip (splitPath pat) (splitPath path))
    then Some (bindAll (splitPath pat) (splitPath path))
    else None.
Proof.
  intros Hlen. unfold matchPattern, bindAll.
  rewrite Hlen, Nat.eqb_refl. cbn [negb]. by apply walkParts_spec.
Qed.

Lemma matchPattern_count pat path :
  length (splitPath pat) ≠ length (splitPath path) →
  matchPattern pat path = None.
Proof.
  intros Hne. unfold matchPattern.
  by apply Nat.eqb_neq in Hne as ->.
Qed.

(** C4.  When the pattern and the request path have the same number of
    segments, the matcher walks them pairwise: it succeeds exactly when
    every segment that does not begin with [:] equals the request
    segment at its place, and then the mapping is the one obtained by
    binding, in order, the text after [:] of each parameter segment to
    the request segment at its place; so a parameter reads its request
    segment (the last one, when a name is repeated), and nothing else is
    bound.  For the pattern [/users/:id]: [/users/42] matches with
    [id = 42], [/users/42/extra] and [/orders/42] do not match. *)
Theorem matcher_binds_and_rejects :
  (∀ pat path,
     length (splitPath pat) = length (splitPath path) →
     let ps := splitPath pat in
     let qs := splitPath path in
     (matchPattern pat path =
        if forallb segmentAgrees (zip ps qs) then Some (bindAll ps qs) else None) ∧
     (is_Some (matchPattern pat path) ↔
        ∀ i p q, ps !! i = Some p → qs !! i = Some q → isParam p = false → p = q) ∧
     (∀ params, matchPattern pat path = Some params →
        (∀ i p q, ps !! i = Some p → qs !! i = Some q → isParam p = true →
           (∀ j p', i < j → ps !! j = Some p' → isParam p' = true →
                    paramName p' ≠ paramName p) →
           params !! paramName p = Some q) ∧
        (∀ k v, params !! k = Some v →
           ∃ i p, ps !! i = Some p ∧ qs !! i = Some v ∧
                  isParam p = true ∧ paramName p = k))) ∧
  (∀ h,
     let r := router (GET New "/users/:id" h) in
     matchRoute r "GET" "/users/42" = (Some h, {[ "id" := "42" ]}) ∧
     matchRoute r "GET" "/users/42/extra" = (None, ∅) ∧
     matchRoute r "GET" "/orders/42" = (None, ∅)).
Proof.
  split.
  - intros pat path Hlen ps qs. subst ps qs.
    pose proof (matchPattern_spec pat path Hlen) as Hspec.
    split; [exact Hspec|]. split.
    + rewrite <- forallb_segmentAgrees, Hspec.
      destruct (forallb _ _); split; done.
    + intros params Hm. rewrite Hspec in Hm.
      destruct (forallb _ _); [|done]. injection Hm as <-. split.
      * intros i p q Hp Hq Hpar Hlast. unfold bindAll.
        by apply (foldl_bindSegment_at _ _ _ i).
      * intros k v Hkv. unfold bindAll in Hkv.
        apply foldl_bindSegment_origin in Hkv as [Hkv | Hkv]; [|done].
        by rewrite lookup_empty in Hkv.
  - intros h r. subst r. repeat split; vm_compute; reflexivity.
Qed.

(** The hypothesis of C4 at [/users/:id] and [/users/42]. *)
Lemma matcher_binds_and_rejects_witness :
  matchPattern "/users/:id" "/users/42" =
    Some (bindAll (splitPath "/users/:id") (splitPath "/users/42")).
Proof.
  exact (proj1 (proj1 matcher_binds_and_rejects "/users/:id" "/users/42" eq_refl)).
Defined.

Lemma matchRoutes_first pre rt post path params :
  Forall (λ x, matchPattern (pattern x) path = None) pre →
  matchPattern (pattern rt) path = Some params →
  matchRoutes (pre ++ rt :: post) path = (handler rt, params).
Proof.
  intros Hpre Hrt. induction Hpre as [|x pre Hx _ IH]; cbn.
  - by rewrite Hrt.
  - by rewrite Hx.
Qed.

Lemma matchRoutes_none rs path :
  Forall (λ x, matchPattern (pattern x) path = None) rs →
  matchRoutes rs path = (None, ∅).
Proof.
  intros Hrs. induction Hrs as [|x rs Hx _ IH]; cbn; [done|].
  by rewrite Hx.
Qed.

(** C6.  The matcher returns the handler and the mapping of the first
    route, in registration order under the method, whose pattern matches
    the path, and nothing when none does.  Registering [/a/:x] and then
    [/a/b], a request for [/a/b] reaches the first; registered the other
    way round, it reaches [/a/b]. *)
Theorem first_registered_match_wins :
  (∀ r method path pre rt post params,
     routes r !! method = Some (pre ++ rt :: post) →
     Forall (λ x, matchPattern (pattern x) path = None) pre →
     matchPattern (pattern rt) path = Some params →
     matchRoute r method path = (handler rt, params)) ∧
  (∀ r method path,
     Forall (λ x, matchPattern (pattern x) path = None)
            (default [] (routes r !! method)) →
     matchRoute r method path = (None, ∅)) ∧
  (∀ h1 h2,
     matchRoute (router (GET (GET New "/a/:x" h1) "/a/b" h2)) "GET" "/a/b"
       = (Some h1, {[ "x" := "b" ]}) ∧
     matchRoute (router (GET (GET New "/a/b" h2) "/a/:x" h1)) "GET" "/a/b"
       = (Some h2, ∅)).
Proof.
  repeat split.
  - intros r method path pre rt post params Hr Hpre Hrt.
    unfold matchRoute. rewrite Hr. cbn. by apply matchRoutes_first.
  - intros r method path Hall. by apply matchRoutes_none.
Qed.

(** The hypotheses of C6 at the table holding [/a/:x] before [/a/b]. *)
Lemma first_registered_match_wins_witness :
  matchRoute (router (GET (GET New "/a/:x" Ret) "/a/b" (Mark "second" Ret)))
             "GET" "/a/b"
    = (Some Ret, {[ "x" := "b" ]}).
Proof.
  refine (proj1 first_registered_match_wins
            (router (GET (GET New "/a/:x" Ret) "/a/b" (Mark "second" Ret)))
            "GET" "/a/b" []
            {| pattern := "/a/:x"; handler := Some Ret |}
            [{| pattern := "/a/b"; handler := Some (Mark "second" Ret) |}]
            {[ "x" := "b" ]} _ _ _).
  - vm_compute. reflexivity.
  - constructor.
  - vm_compute. reflexivity.
Defined.

(** C7, as stated, fails: a path with a trailing separator is matched
    like the path without it. *)
Lemma trailing_slash_is_matched :
  let r := router (GET New "/users/:id" Ret) in
  matchRoute r "GET" "/users/42" = (Some Ret, {[ "id" := "42" ]}) ∧
  matchRoute r "GET" "/users/42/" = (Some Ret, {[ "id" := "42" ]}).
Proof. split; vm_compute; reflexivity. Qed.

(** C7, amended.  The matcher drops the separators at both ends of the
    request path before it counts segments, so that a request path and
    the same path followed by one more separator give the same result
    against every route table. *)
Theorem trailing_slash_equivalent r method path :
  matchRoute r method (path +:+ "/") = matchRoute r method path.
Proof.
  unfold matchRoute.
  induction (default [] (routes r !! method)) as [|rt rs IH]; cbn; [done|].
  by rewrite matchPattern_trailing_slash, IH.
Qed.

(** * Properties of the chain executor *)

(** ** Invariants of a run *)

Section RunInvariant.

Variable P : State → Prop.

Hypothesis P_stop : ∀ s, P s → P (emit StopSet (on_ctx Stop s)).
Hypothesis P_header : ∀ s code, P s → P (on_writer (λ w, WriteHeader w code) s).
Hypothesis P_write : ∀ s b, P s → P (on_writer (λ w, Write w b) s).
Hypothesis P_mark : ∀ s m, P s → P (emit (Marked m) s).
Hypothesis P_fire : ∀ s, P s → P (fire s).

(** What every step of a body and the continuation keep, the call
    keeps. *)
Lemma call_preserves h next :
  (∀ s, P s → P (next s)) → ∀ s, P s → P (call h next s).
Proof.
  intros Hnext. induction h as [|k IH|k IH|code k IH|b k IH|m k IH|k IH|k IH];
    intros s Hs; cbn; eauto.
Qed.

(** A body that never calls the continuation does not depend on it. *)
Lemma call_preserves_no_next h next :
  no_next h → ∀ s, P s → P (call h next s).
Proof.
  induction 1; intros s Hs; cbn; eauto.
Qed.

Hypothesis P_invoke :
  ∀ s i, P s → Done (ctx s) = false → Stopped (ctx s) = false →
         P (emit (Invoked i) s).

Lemma exec_from_preserves rest i s : P s → P (exec_from rest i s).
Proof.
  revert i s. induction rest as [|h rest IH]; intros i s Hs; cbn.
  - destruct (Done (ctx s)); [by apply P_header | done].
  - destruct (Done (ctx s)) eqn:Hd; [by apply P_header|].
    destruct (Stopped (ctx s)) eqn:Hst; cbn [negb]; [done|].
    apply call_preserves; [intros; by apply IH|].
    by apply P_invoke.
Qed.

End RunInvariant.

(** ** Reading the log *)

Section LogFacts.

Implicit Types (e ev : Event) (t : list Event).

Lemma snoc_split t ev t1 e t2 :
  t ++ [ev] = t1 ++ e :: t2 →
  (t2 = [] ∧ t = t1 ∧ ev = e) ∨
  (∃ t2', t2 = t2' ++ [ev] ∧ t = t1 ++ e :: t2').
Proof.
  destruct t2 as [|x t2' _] using rev_ind; intros H.
  - left. apply (app_inj_tail t t1) in H as [-> ->]. done.
  - right. exists t2'.
    change (t ++ [ev] = t1 ++ (e :: t2') ++ [x]) in H.
    rewrite app_assoc in H. apply app_inj_tail in H as [-> ->]. done.
Qed.

Lemma never_after_nil e : never_after e [].
Proof. intros t1 t2 ev H. by destruct t1. Qed.

(** An event that is not a call may follow anything. *)
Lemma never_after_snoc_quiet e t ev :
  is_invocation ev = false → never_after e t → never_after e (t ++ [ev]).
Proof.
  intros Hq Ht t1 t2 ev' Heq Hin.
  apply snoc_split in Heq as [(-> & _ & _) | (t2' & -> & ->)].
  - by apply elem_of_nil in Hin.
  - apply elem_of_app in Hin as [Hin | Hin].
    + by apply (Ht t1 t2').
    + apply list_elem_of_singleton in Hin as ->. done.
Qed.

(** Any event may follow a log in which [e] has not occurred. *)
Lemma never_after_snoc_absent e t ev :
  e ∉ t → never_after e (t ++ [ev]).
Proof.
  intros Hnot t1 t2 ev' Heq Hin.
  apply snoc_split in Heq as [(-> & _ & _) | (t2' & -> & ->)].
  - by apply elem_of_nil in Hin.
  - exfalso. apply Hnot. apply elem_of_app. right. by left.
Qed.

Lemma elem_of_snoc_ne e t ev : e ≠ ev → e ∈ t ++ [ev] → e ∈ t.
Proof.
  intros Hne Hin. apply elem_of_app in Hin as [Hin | Hin]; [done|].
  by apply list_elem_of_singleton in Hin.
Qed.

Lemma invocations_snoc t ev :
  invocations (t ++ [ev]) =
    invocations t ++ (if is_invocation ev then [ev] else []).
Proof. unfold invocations. by rewrite List.filter_app. Qed.

End LogFacts.

(** ** The stopped flag *)

Lemma exec_from_stop_respected rest i s :
  stop_respected s → stop_respected (exec_from rest i s).
Proof.
  apply exec_from_preserves; clear.
  - intros s [_ Hn]. split; [done|]. by apply never_after_snoc_quiet.
  - intros s code H. exact H.
  - intros s b H. exact H.
  - intros s m [Hf Hn]. split.
    + intros Hin. apply Hf. by apply elem_of_snoc_ne in Hin.
    + by apply never_after_snoc_quiet.
  - intros s [Hf Hn]. unfold fire. destruct (Done (ctx s)); [done|]. split.
    + intros Hin. apply Hf. by apply elem_of_snoc_ne in Hin.
    + by apply never_after_snoc_quiet.
  - intros s i [Hf Hn] _ Hst.
    assert (StopSet ∉ trace s) as Hnot.
    { intros Hin. apply Hf in Hin. congruence. }
    split.
    + intros Hin. by apply elem_of_snoc_ne in Hin.
    + by apply never_after_snoc_absent.
Qed.

Lemma call_stop_respected h s :
  stop_respected s → stop_respected (call h (λ s', s') s).
Proof.
  apply call_preserves; clear; try done.
  - intros s [_ Hn]. split; [done|]. by apply never_after_snoc_quiet.
  - intros s m [Hf Hn]. split.
    + intros Hin. apply Hf. by apply elem_of_snoc_ne in Hin.
    + by apply never_after_snoc_quiet.
  - intros s [Hf Hn]. unfold fire. destruct (Done (ctx s)); [done|]. split.
    + intros Hin. apply Hf. by apply elem_of_snoc_ne in Hin.
    + by apply never_after_snoc_quiet.
Qed.

Lemma newContext_no_StopSet w r : StopSet ∉ trace (newContext w r).
Proof.
  cbn. destruct (Cancelled r).
  - intros Hin. apply list_elem_of_singleton in Hin. done.
  - apply not_elem_of_nil.
Qed.

Lemma exec_from_stopped rest i s :
  Stopped (ctx s) = true →
  exec_from rest i s =
    if Done (ctx s)
    then on_writer (λ w, WriteHeader w StatusGatewayTimeout) s
    else s.
Proof.
  intros Hst. destruct rest; cbn; destruct (Done (ctx s)); try done.
  by rewrite Hst.
Qed.

(** C8.  Once a handler has set the stopped flag, the executor calls no
    further function of the chain, middleware or terminal handler: a step
    entered with the flag set calls nothing and leaves the log as it is;
    in every run of a chain started where the flag follows the log, and
    so in every dispatch, no call of a handler is logged after the flag
    was set. *)
Theorem stopped_chain_calls_nothing_more :
  (∀ mws i s, Stopped (ctx s) = true → trace (exec mws i s) = trace s) ∧
  (∀ mws i s, stop_respected s → never_after StopSet (trace (exec mws i s))) ∧
  (∀ a w r, never_after StopSet (trace (ServeHTTP a w r))).
Proof.
  split; [|split].
  - intros mws i s Hst. unfold exec. rewrite exec_from_stopped by done.
    by destruct (Done (ctx s)).
  - intros mws i s Hs. by apply exec_from_stop_respected.
  - intros a w r. unfold ServeHTTP.
    pose proof (newContext_no_StopSet w r) as Hnot.
    assert (Stopped (ctx (newContext w r)) = false) as Hst by done.
    destruct (matchRoute _ _ _) as [[h|] params].
    + apply exec_from_stop_respected. split.
      * intros Hin. by apply Hnot in Hin.
      * cbn [on_ctx trace]. intros t1 t2 ev Heq _. exfalso. apply Hnot.
        rewrite Heq. apply elem_of_app. right. by left.
    + destruct (NotFoundHandler a) as [nf|].
      * apply call_stop_respected. split.
        -- intros Hin. apply elem_of_snoc_ne in Hin; [|done]. by apply Hnot in Hin.
        -- by apply never_after_snoc_absent.
      * cbn [httpNotFound on_ctx trace emit]. by apply never_after_snoc_absent.
Qed.

(** The hypotheses of C8 at a context on which [Stop] was called. *)
Lemma stopped_chain_calls_nothing_more_witness :
  trace (exec [Mark "late" Ret] 0
           {| ctx := Stop (ctx (newContext [] (mkRequest "GET" "/" false)));
              trace := [StopSet] |})
    = [StopSet].
Proof.
  exact (proj1 stopped_chain_calls_nothing_more [Mark "late" Ret] 0
           {| ctx := Stop (ctx (newContext [] (mkRequest "GET" "/" false)));
              trace := [StopSet] |} eq_refl).
Defined.

(** ** The cancellation signal *)

Lemma exec_from_signal_respected rest i s :
  signal_respected s → signal_respected (exec_from rest i s).
Proof.
  apply exec_from_preserves; clear.
  - intros s [Hf Hn]. split.
    + intros Hin. apply Hf. by apply elem_of_snoc_ne in Hin.
    + by apply never_after_snoc_quiet.
  - intros s code H. exact H.
  - intros s b H. exact H.
  - intros s m [Hf Hn]. split.
    + intros Hin. apply Hf. by apply elem_of_snoc_ne in Hin.
    + by apply never_after_snoc_quiet.
  - intros s [Hf Hn]. unfold fire. destruct (Done (ctx s)) eqn:Hd; [done|].
    split; [done|]. by apply never_after_snoc_quiet.
  - intros s i [Hf Hn] Hd _.
    assert (Fired ∉ trace s) as Hnot.
    { intros Hin. apply Hf in Hin. congruence. }
    split.
    + intros Hin. by apply elem_of_snoc_ne in Hin.
    + by apply never_after_snoc_absent.
Qed.

Lemma exec_from_done rest i s :
  Done (ctx s) = true →
  exec_from rest i s = on_writer (λ w, WriteHeader w StatusGatewayTimeout) s.
Proof. intros Hd. destruct rest; cbn; by rewrite Hd. Qed.

Lemma newContext_signal_respected w r params :
  signal_respected (on_ctx (λ c, with_Params c params) (newContext w r)).
Proof.
  split; cbn; destruct (Cancelled r) eqn:Hc; try done.
  - intros Hin. by apply elem_of_nil in Hin.
  - intros t1 t2 ev Heq Hin. destruct t1 as [|x [|y t1]]; simplify_eq/=.
    by apply elem_of_nil in Hin.
  - apply never_after_nil.
Qed.

(** C1, as stated, fails: a request that matches no route and whose
    cancellation scope has expired at dispatch is answered by the
    not-found handler, with its status. *)
Lemma expired_unmatched_request_runs_not_found :
  let s := ServeHTTP New [] {| Method := "GET"; Path := "/missing"; Cancelled := true |} in
  Status (Writer (ctx s)) = 404%Z ∧
  Status (Writer (ctx s)) ≠ StatusGatewayTimeout ∧
  trace s = [Fired; InvokedNotFound].
Proof. repeat split. discriminate. Qed.

(** C1, amended.  A step of the chain executor entered with the
    cancellation signal triggered returns at once: it calls no handler and
    sets the gateway timeout status on the writer.  In every run of the
    chain no handler is called after the signal fired; handlers already
    running resume when their continuation returns.  A request that
    matches a route and whose cancellation scope has expired at dispatch
    gets the gateway timeout status and no handler is called.  (A request
    that matches no route does not go through the chain executor.) *)
Theorem cancelled_chain_step_aborts :
  (∀ mws i s, Done (ctx s) = true →
     let s' := exec mws i s in
     s' = on_writer (λ w, WriteHeader w StatusGatewayTimeout) s ∧
     Status (Writer (ctx s')) = StatusGatewayTimeout ∧
     Written (Writer (ctx s')) = true ∧
     inner (Writer (ctx s')) = inner (Writer (ctx s)) ++ [SinkWriteHeader 504] ∧
     trace s' = trace s) ∧
  (∀ mws i s, signal_respected s → never_after Fired (trace (exec mws i s))) ∧
  (∀ a w r h params,
     matchRoute (router a) (Method r) (Path r) = (Some h, params) →
     never_after Fired (trace (ServeHTTP a w r))) ∧
  (∀ a w r h params,
     matchRoute (router a) (Method r) (Path r) = (Some h, params) →
     Cancelled r = true →
     ServeHTTP a w r =
       {| ctx := {| Writer := {| inner := w ++ [SinkWriteHeader 504];
                                 written := true;
                                 status := StatusGatewayTimeout |};
                    Params := params;
                    Stopped := false;
                    Done := true |};
          trace := [Fired] |}).
Proof.
  split; [|split; [|split]].
  - intros mws i s Hd s'. subst s'. unfold exec.
    by rewrite exec_from_done.
  - intros mws i s Hs. by apply exec_from_signal_respected.
  - intros a w r h params Hm. unfold ServeHTTP. rewrite Hm.
    apply exec_from_signal_respected, newContext_signal_respected.
  - intros a w r h params Hm Hc. unfold ServeHTTP, exec. rewrite Hm.
    rewrite exec_from_done by (cbn; by rewrite Hc).
    unfold on_writer, on_ctx, newContext, with_Params, with_Writer, WriteHeader, NewResponseWriter. cbn. by rewrite Hc.
Qed.

(** The hypotheses of C1 at an expired request for a registered route
    behind one middleware. *)
Lemma cancelled_chain_step_aborts_witness :
  ServeHTTP (GET (Use New (Mark "mw" (CallNext Ret))) "/users/:id" (Mark "handler" Ret))
            [] {| Method := "GET"; Path := "/users/42"; Cancelled := true |}
    = {| ctx := {| Writer := {| inner := [SinkWriteHeader 504];
                                written := true;
                                status := StatusGatewayTimeout |};
                   Params := {[ "id" := "42" ]};
                   Stopped := false;
                   Done := true |};
         trace := [Fired] |}.
Proof.
  refine (proj2 (proj2 (proj2 cancelled_chain_step_aborts))
            (GET (Use New (Mark "mw" (CallNext Ret))) "/users/:id" (Mark "handler" Ret))
            [] {| Method := "GET"; Path := "/users/42"; Cancelled := true |}
            (Mark "handler" Ret) {[ "id" := "42" ]} _ _).
  - vm_compute. reflexivity.
  - reflexivity.
Defined.

(** ** Order of execution *)

Lemma call_respond cs next s :
  call (respond cs) next s = on_writer (λ w, apply_calls w cs) s.
Proof.
  revert s. induction cs as [|c cs IH]; intros [c0 t].
  - by destruct c0 as [[] ? ? ?].
  - destruct c; cbn [respond call]; by rewrite IH.
Qed.

Lemma exec_from_nested bas hm cs i s :
  Done (ctx s) = false → Stopped (ctx s) = false →
  exec_from (map around bas ++ [Mark hm (respond cs)]) i s =
    {| ctx := with_Writer (ctx s) (apply_calls (Writer (ctx s)) cs);
       trace := trace s ++ nested i bas hm |}.
Proof.
  revert i s. induction bas as [|ba bas IH]; intros i s Hd Hst.
  - cbn [map app exec_from]. rewrite Hd, Hst. cbn [negb call].
    rewrite call_respond. unfold on_writer, on_ctx, emit. cbn.
    by rewrite <- app_assoc.
  - cbn [map app exec_from]. rewrite Hd, Hst. cbn [negb around call].
    rewrite IH by done. unfold emit. cbn.
    f_equal. by rewrite <- !app_assoc.
Qed.

Lemma markers_nested i bas hm :
  markers (nested i bas hm) = bas.*1 ++ [hm] ++ rev bas.*2.
Proof.
  revert i. induction bas as [|[b a] bas IH]; intros i; [done|].
  cbn [nested fmap list_fmap fst snd rev]. unfold markers in *.
  rewrite !omap_app, IH. cbn. by rewrite <- !app_assoc.
Qed.

(** C5.  For a request that matches a route, is not cancelled, and is
    served through middleware that each leave a marker, call their
    continuation and leave a second marker, the markers come in the order
    of registration before the handler's and in the reverse order after
    it.  With two such middleware and a handler [H] the sequence is
    [M1-before, M2-before, H, M2-after, M1-after]. *)
Theorem middleware_nests :
  (∀ a w r bas hm cs params,
     middleware a = map around bas →
     matchRoute (router a) (Method r) (Path r) = (Some (Mark hm (respond cs)), params) →
     Cancelled r = false →
     trace (ServeHTTP a w r) = nested 0 bas hm ∧
     markers (trace (ServeHTTP a w r)) = bas.*1 ++ [hm] ++ rev bas.*2) ∧
  (∀ b1 a1 b2 a2 hm cs w,
     let app := GET (Use (Use New (around (b1, a1))) (around (b2, a2)))
                    "/order-test" (Mark hm (respond cs)) in
     markers (trace (ServeHTTP app w
                       {| Method := "GET"; Path := "/order-test"; Cancelled := false |}))
       = [b1; b2; hm; a2; a1]).
Proof.
  assert (∀ a w r bas hm cs params,
     middleware a = map around bas →
     matchRoute (router a) (Method r) (Path r) = (Some (Mark hm (respond cs)), params) →
     Cancelled r = false →
     trace (ServeHTTP a w r) = nested 0 bas hm) as Hgen.
  { intros a w r bas hm cs params Hmw Hm Hc.
    unfold ServeHTTP, exec. rewrite Hm. cbv zeta. rewrite Hmw.
    change (drop 0 ?l) with l.
    rewrite exec_from_nested by (unfold newContext; cbn; by rewrite ?Hc).
    unfold newContext. cbn. by rewrite Hc. }
  split.
  - intros a w r bas hm cs params Hmw Hm Hc.
    rewrite (Hgen a w r bas hm cs params) by done.
    split; [done | apply markers_nested].
  - intros b1 a1 b2 a2 hm cs w app.
    rewrite (Hgen app w _ [(b1, a1); (b2, a2)] hm cs ∅).
    + reflexivity.
    + reflexivity.
    + vm_compute. reflexivity.
    + reflexivity.
Qed.

(** The hypotheses of C5 at the application of the ordering test. *)
Lemma middleware_nests_witness :
  markers (trace (ServeHTTP
     (GET (Use (Use New (around ("M1-before", "M1-after")))
               (around ("M2-before", "M2-after")))
          "/order-test" (Mark "H" (respond [CallWriteHeader 200; CallWrite "order test"])))
     [] {| Method := "GET"; Path := "/order-test"; Cancelled := false |}))
  = ["M1-before"; "M2-before"; "H"; "M2-after"; "M1-after"].
Proof.
  refine (proj2 (proj1 middleware_nests
     (GET (Use (Use New (around ("M1-before", "M1-after")))
               (around ("M2-before", "M2-after")))
          "/order-test" (Mark "H" (respond [CallWriteHeader 200; CallWrite "order test"])))
     [] {| Method := "GET"; Path := "/order-test"; Cancelled := false |}
     [("M1-before", "M1-after"); ("M2-before", "M2-after")] "H"
     [CallWriteHeader 200; CallWrite "order test"] ∅ _ _ _)).
  - reflexivity.
  - vm_compute. reflexivity.
  - reflexivity.
Defined.

(** ** How often the terminal handler runs *)

Section Counting.

Implicit Types (t : list Event) (s : State).

Lemma count_occ_invocations t e :
  is_invocation e = true →
  count_occ Event_eq_dec t e = count_occ Event_eq_dec (invocations t) e.
Proof.
  intros He. induction t as [|x t IH]; [done|].
  cbn [invocations List.filter count_occ]. fold (invocations t).
  destruct (Event_eq_dec x e) as [->|Hne].
  - rewrite He. cbn [count_occ]. destruct (Event_eq_dec e e); [|done]. by rewrite IH.
  - destruct (is_invocation x); [|done].
    cbn [count_occ]. by destruct (Event_eq_dec x e).
Qed.

Lemma count_occ_Invoked_seq i k n :
  count_occ Event_eq_dec (map Invoked (seq i k)) (Invoked n) =
    if bool_decide (i ≤ n < i + k) then 1 else 0.
Proof.
  revert i. induction k as [|k IH]; intros i.
  - cbn. case_bool_decide; [lia | done].
  - cbn [seq map count_occ]. rewrite IH.
    destruct (Event_eq_dec (Invoked i) (Invoked n)) as [Heq|Hne].
    + injection Heq as ->. repeat case_bool_decide; lia.
    + assert (i ≠ n) by congruence. repeat case_bool_decide; lia.
Qed.

Lemma count_occ_NotFound_seq i k :
  count_occ Event_eq_dec (map Invoked (seq i k)) InvokedNotFound = 0.
Proof. revert i. induction k as [|k IH]; intros i; [done|]. cbn. apply IH. Qed.

(** The steps of a body call no handler; only the continuation can. *)
Lemma call_invocations h next s X :
  (∀ s', invocations (trace s') = X → invocations (trace (next s')) = X) →
  invocations (trace s) = X →
  invocations (trace (call h next s)) = X.
Proof.
  intros Hnext.
  apply (call_preserves (λ s', invocations (trace s') = X)); try done.
  - intros s' H. cbn. by rewrite invocations_snoc, H, app_nil_r.
  - intros s' m H. cbn. by rewrite invocations_snoc, H, app_nil_r.
  - intros s' H. unfold fire. destruct (Done (ctx s')); [done|].
    cbn. by rewrite invocations_snoc, H, app_nil_r.
Qed.

Lemma call_no_next_invocations h next s X :
  no_next h →
  invocations (trace s) = X →
  invocations (trace (call h next s)) = X.
Proof.
  intros Hh.
  apply (call_preserves_no_next (λ s', invocations (trace s') = X)); try done.
  - intros s' H. cbn. by rewrite invocations_snoc, H, app_nil_r.
  - intros s' m H. cbn. by rewrite invocations_snoc, H, app_nil_r.
  - intros s' H. unfold fire. destruct (Done (ctx s')); [done|].
    cbn. by rewrite invocations_snoc, H, app_nil_r.
Qed.

(** A handler that passes on adds to the calls what its continuation
    adds, once. *)
Lemma call_passes_on h next L :
  passes_on h →
  (∀ s, Done (ctx s) = false → Stopped (ctx s) = false →
        invocations (trace (next s)) = invocations (trace s) ++ L) →
  ∀ s, Done (ctx s) = false → Stopped (ctx s) = false →
       invocations (trace (call h next s)) = invocations (trace s) ++ L.
Proof.
  intros Hh Hnext. induction Hh as [k Hk|code k _ IH|b k _ IH|m k _ IH|k _ IH];
    intros s Hd Hst; cbn [call].
  - apply call_no_next_invocations; [done|]. by apply Hnext.
  - by rewrite IH.
  - by rewrite IH.
  - rewrite IH by done. cbn. by rewrite invocations_snoc, app_nil_r.
  - by apply IH.
Qed.

Lemma exec_from_passes_on ms h i s :
  Forall passes_on ms →
  Done (ctx s) = false → Stopped (ctx s) = false →
  invocations (trace (exec_from (ms ++ [h]) i s)) =
    invocations (trace s) ++ map Invoked (seq i (S (length ms))).
Proof.
  intros Hms. revert i s.
  induction Hms as [|m ms Hm _ IH]; intros i s Hd Hst;
    cbn [app exec_from]; rewrite Hd, Hst; cbn [negb].
  - apply call_invocations.
    + intros s' H. cbn. by destruct (Done (ctx s')).
    + cbn. by rewrite invocations_snoc.
  - rewrite (call_passes_on m _ (map Invoked (seq (S i) (S (length ms))))); try done.
    + cbn [emit trace]. rewrite invocations_snoc. cbn [is_invocation].
      by rewrite <- app_assoc.
    + intros s' Hd' Hst'. by apply IH.
Qed.

Lemma count_occ_snoc t e x :
  count_occ Event_eq_dec (t ++ [e]) x =
    count_occ Event_eq_dec t x + (if Event_eq_dec e x then 1 else 0).
Proof. rewrite count_occ_app. cbn. by destruct (Event_eq_dec e x). Qed.

(** The chain executor never calls the not-found handler. *)
Lemma exec_from_no_NotFound rest i s :
  count_occ Event_eq_dec (trace s) InvokedNotFound = 0 →
  count_occ Event_eq_dec (trace (exec_from rest i s)) InvokedNotFound = 0.
Proof.
  apply (exec_from_preserves
           (λ s', count_occ Event_eq_dec (trace s') InvokedNotFound = 0)); clear.
  - intros s H. cbn. by rewrite count_occ_snoc, H.
  - done.
  - done.
  - intros s m H. cbn. by rewrite count_occ_snoc, H.
  - intros s H. unfold fire. destruct (Done (ctx s)); [done|].
    cbn. by rewrite count_occ_snoc, H.
  - intros s i H _ _. cbn. by rewrite count_occ_snoc, H.
Qed.

End Counting.

(** C3, as stated, fails: behind a middleware that does not call its
    continuation no terminal handler runs, and behind one that calls it
    twice the matched handler runs twice. *)
Lemma terminal_handler_runs_zero_or_two_times :
  let r := {| Method := "GET"; Path := "/private"; Cancelled := false |} in
  terminal_runs 1 (trace (ServeHTTP app_short_circuit [] r)) = 0 ∧
  terminal_runs 1 (trace (ServeHTTP app_twice [] r)) = 2.
Proof. split; vm_compute; reflexivity. Qed.

(** C3, amended.  A request that matches no route runs the configured
    not-found handler exactly once and no other handler.  A request that
    matches a route never runs the not-found handler, and it runs every
    function of the chain exactly once, in order, ending with the matched
    handler, when the request is not cancelled and every middleware
    calls its continuation exactly once, before which it neither sets
    the stopped flag nor sees the cancellation signal fire. *)
Theorem terminal_handler_runs_once_when_passed_on :
  (∀ a w r nf,
     (matchRoute (router a) (Method r) (Path r)).1 = None →
     NotFoundHandler a = Some nf →
     invocations (trace (ServeHTTP a w r)) = [InvokedNotFound] ∧
     ∀ n, terminal_runs n (trace (ServeHTTP a w r)) = 1) ∧
  (∀ a w r h params,
     matchRoute (router a) (Method r) (Path r) = (Some h, params) →
     count_occ Event_eq_dec (trace (ServeHTTP a w r)) InvokedNotFound = 0) ∧
  (∀ a w r h params,
     matchRoute (router a) (Method r) (Path r) = (Some h, params) →
     Cancelled r = false →
     Forall passes_on (middleware a) →
     invocations (trace (ServeHTTP a w r))
       = map Invoked (seq 0 (S (length (middleware a)))) ∧
     terminal_runs (length (middleware a)) (trace (ServeHTTP a w r)) = 1).
Proof.
  split; [|split].
  - intros a w r nf Hm Hnf.
    assert (invocations (trace (ServeHTTP a w r)) = [InvokedNotFound]) as Hinv.
    { unfold ServeHTTP. destruct (matchRoute _ _ _) as [[h|] params]; [done|].
      rewrite Hnf. apply call_invocations; [done|].
      unfold newContext. cbn. by destruct (Cancelled r). }
    split; [done|]. intros n. unfold terminal_runs.
    rewrite (count_occ_invocations _ (Invoked n)) by done.
    rewrite (count_occ_invocations _ InvokedNotFound) by done.
    rewrite Hinv. reflexivity.
  - intros a w r h params Hm.
    unfold ServeHTTP, exec. rewrite Hm. cbv zeta.
    apply exec_from_no_NotFound.
    unfold newContext. cbn. by destruct (Cancelled r).
  - intros a w r h params Hm Hc Hms.
    assert (invocations (trace (ServeHTTP a w r))
            = map Invoked (seq 0 (S (length (middleware a))))) as Hinv.
    { unfold ServeHTTP, exec. rewrite Hm. cbv zeta. change (drop 0 ?l) with l.
      rewrite exec_from_passes_on; try done.
      unfold newContext. cbn. by rewrite Hc. }
    split; [done|]. unfold terminal_runs.
    rewrite (count_occ_invocations _ (Invoked _)) by done.
    rewrite (count_occ_invocations _ InvokedNotFound) by done.
    rewrite Hinv.
    rewrite count_occ_Invoked_seq, count_occ_NotFound_seq.
    case_bool_decide; lia.
Qed.

(** The hypotheses of C3 at the application of the ordering test. *)
Lemma terminal_handler_runs_once_when_passed_on_witness :
  terminal_runs 2 (trace (ServeHTTP
     (GET (Use (Use New (around ("M1-before", "M1-after")))
               (around ("M2-before", "M2-after")))
          "/order-test" (Mark "H" Ret))
     [] {| Method := "GET"; Path := "/order-test"; Cancelled := false |})) = 1.
Proof.
  refine (proj2 (proj2 (proj2 terminal_handler_runs_once_when_passed_on)
     (GET (Use (Use New (around ("M1-before", "M1-after")))
               (around ("M2-before", "M2-after")))
          "/order-test" (Mark "H" Ret))
     [] {| Method := "GET"; Path := "/order-test"; Cancelled := false |}
     (Mark "H" Ret) ∅ _ _ _)).
  - vm_compute. reflexivity.
  - reflexivity.
  - repeat constructor.
Defined.

(** ** The default not-found handler *)

Lemma setup_step_NotFoundHandler a st :
  NotFoundHandler (setup_step a st) = NotFoundHandler a.
Proof. by destruct st. Qed.

Lemma foldl_setup_NotFoundHandler steps a :
  NotFoundHandler (foldl setup_step a steps) = NotFoundHandler a.
Proof.
  revert a. induction steps as [|st steps IH]; intros a; [done|].
  cbn. by rewrite IH, setup_step_NotFoundHandler.
Qed.

Lemma foldl_setup_middleware_not_found steps a w r :
  (matchRoute (router (foldl setup_step a steps)) (Method r) (Path r)).1 = None →
  NotFoundHandler a = Some defaultNotFound →
  ServeHTTP (foldl setup_step a steps) w r =
    call defaultNotFound (λ s', s') (emit InvokedNotFound (newContext w r)).
Proof.
  intros Hm Hnf. unfold ServeHTTP.
  destruct (matchRoute _ _ _) as [[h|] params]; [done|].
  by rewrite foldl_setup_NotFoundHandler, Hnf.
Qed.

(** C10.  The application [New] returns, and every application set up
    from it by [Use] and by registering routes, has the default not-found
    handler, which sets status 404 and writes the body [404 Not Found].
    On such an application a request that matches no route is answered by
    that handler: the fallback of the transport is not used and no
    middleware is called. *)
Theorem default_not_found_handler :
  NotFoundHandler New = Some defaultNotFound ∧
  StatusNotFound = 404%Z ∧
  (∀ steps, NotFoundHandler (setup steps) = Some defaultNotFound) ∧
  (∀ next s,
     call defaultNotFound next s =
       on_writer (λ w, Write (WriteHeader w StatusNotFound) "404 Not Found") s) ∧
  (∀ steps w r,
     (matchRoute (router (setup steps)) (Method r) (Path r)).1 = None →
     let s := ServeHTTP (setup steps) w r in
     Writer (ctx s) =
       {| inner := w ++ [SinkWriteHeader 404; SinkWrite "404 Not Found"];
          written := true;
          status := 404 |} ∧
     trace s = (if Cancelled r then [Fired] else []) ++ [InvokedNotFound] ∧
     invocations (trace s) = [InvokedNotFound]).
Proof.
  split; [done|]. split; [done|]. split; [|split].
  - intros steps. apply foldl_setup_NotFoundHandler.
  - intros next [c t]. by destruct c as [[] ? ? ?].
  - intros steps w r Hm s. subst s. unfold setup in *.
    rewrite foldl_setup_middleware_not_found by done.
    unfold newContext. cbn. split; [|split; [done|]].
    + unfold Write, WriteHeader, NewResponseWriter. cbn. by rewrite <- app_assoc.
    + by destruct (Cancelled r).
Qed.

(** The hypothesis of C10 at an application with one middleware and one
    route, asked for another path. *)
Lemma default_not_found_handler_witness :
  invocations (trace (ServeHTTP
     (setup [StepUse (Mark "mw" (CallNext Ret));
             StepRoute "GET" "/users/:id" (Some (Mark "handler" Ret))])
     [] {| Method := "GET"; Path := "/missing"; Cancelled := false |}))
  = [InvokedNotFound].
Proof.
  refine (proj2 (proj2 (proj2 (proj2 (proj2 (proj2 default_not_found_handler)))
     [StepUse (Mark "mw" (CallNext Ret));
      StepRoute "GET" "/users/:id" (Some (Mark "handler" Ret))]
     [] {| Method := "GET"; Path := "/missing"; Cancelled := false |} _))).
  vm_compute. reflexivity.
Defined.

(** * Further properties *)

(** ** The chain executor, by index *)

(** The executor, defined on the rest of the chain, reads as the closure
    of the source does on the index. *)
Lemma exec_unfolds mws i s :
  exec mws i s =
    if Done (ctx s) then on_writer (λ w, WriteHeader w StatusGatewayTimeout) s
    else match mws !! i with
         | Some h =>
             if negb (Stopped (ctx s))
             then call h (exec mws (S i)) (emit (Invoked i) s)
             else s
         | None => s
         end.
Proof.
  unfold exec. destruct (mws !! i) as [h|] eqn:Hi.
  - by rewrite (drop_S _ _ _ Hi).
  - apply lookup_ge_None in Hi. rewrite drop_ge by done. reflexivity.
Qed.

(** ** Short-circuiting *)

Section ShortCircuit.

Variable t0 : list Event.
Variable bound : nat.

Lemma calls_within_emit e s :
  (∀ j, e = Invoked j → (j ≤ bound)%nat) →
  calls_within t0 bound s → calls_within t0 bound (emit e s).
Proof.
  intros He Hs j Hin. cbn in Hin. apply elem_of_app in Hin as [Hin | Hin].
  - by apply Hs.
  - apply list_elem_of_singleton in Hin. right. by apply He.
Qed.

Lemma calls_within_fire s :
  calls_within t0 bound s → calls_within t0 bound (fire s).
Proof.
  intros Hs. unfold fire. destruct (Done (ctx s)); [done|].
  apply calls_within_emit; [done|]. exact Hs.
Qed.

Lemma call_calls_within h next s :
  (∀ s', calls_within t0 bound s' → calls_within t0 bound (next s')) →
  calls_within t0 bound s → calls_within t0 bound (call h next s).
Proof.
  intros Hnext Hs. revert s Hs.
  apply (call_preserves (calls_within t0 bound)); try done.
  - intros s' H. by apply (calls_within_emit StopSet (on_ctx Stop s')).
  - intros s' m H. by apply calls_within_emit.
  - apply calls_within_fire.
Qed.

Lemma call_no_next_calls_within h next s :
  no_next h →
  calls_within t0 bound s → calls_within t0 bound (call h next s).
Proof.
  intros Hh Hs. revert s Hs.
  apply (call_preserves_no_next (calls_within t0 bound)); try done.
  - intros s' H. by apply (calls_within_emit StopSet (on_ctx Stop s')).
  - intros s' m H. by apply calls_within_emit.
  - apply calls_within_fire.
Qed.

(** Behind a function that never calls its continuation the executor
    calls nothing. *)
Lemma exec_from_calls_within rest k m i s :
  rest !! k = Some m → no_next m → (i + k ≤ bound)%nat →
  calls_within t0 bound s → calls_within t0 bound (exec_from rest i s).
Proof.
  revert k i s. induction rest as [|h rest IH]; intros k i s Hk Hm Hb Hs; [done|].
  cbn [exec_from]. destruct (Done (ctx s)); [exact Hs|].
  destruct (Stopped (ctx s)); cbn [negb]; [exact Hs|].
  assert (calls_within t0 bound (emit (Invoked i) s)) as Hs'.
  { apply calls_within_emit; [|done]. intros j [= <-]. lia. }
  destruct k as [|k]; simplify_eq/=.
  - by apply call_no_next_calls_within.
  - apply call_calls_within; [|done].
    intros s' Hs''. apply (IH k); [done | done | lia | done].
Qed.

End ShortCircuit.

Lemma newContext_no_Invoked w r params j :
  Invoked j ∉ trace (on_ctx (λ c, with_Params c params) (newContext w r)).
Proof.
  cbn. destruct (Cancelled r).
  - intros Hin. apply list_elem_of_singleton in Hin. done.
  - apply not_elem_of_nil.
Qed.

(** X2.  A function of the chain that never calls its continuation halts
    the chain: started at or before its index [k], the executor calls no
    function with an index above [k]; a dispatch whose middleware at
    place [k] is such a function calls nothing beyond it, and in
    particular never the matched handler. *)
Theorem no_continuation_halts_chain :
  (∀ mws k m i s j,
     mws !! k = Some m → no_next m → (i ≤ k)%nat →
     Invoked j ∈ trace (exec mws i s) → Invoked j ∈ trace s ∨ (j ≤ k)%nat) ∧
  (∀ a w r h params k m,
     matchRoute (router a) (Method r) (Path r) = (Some h, params) →
     middleware a !! k = Some m → no_next m →
     (∀ j, Invoked j ∈ trace (ServeHTTP a w r) → (j ≤ k)%nat) ∧
     terminal_runs (length (middleware a)) (trace (ServeHTTP a w r)) = 0).
Proof.
  assert (∀ mws k m i s j,
     mws !! k = Some m → no_next m → (i ≤ k)%nat →
     Invoked j ∈ trace (exec mws i s) → Invoked j ∈ trace s ∨ (j ≤ k)%nat) as Hexec.
  { intros mws k m i s j Hk Hm Hik. unfold exec.
    apply (exec_from_calls_within (trace s) k (drop i mws) (k - i) m); try done.
    - rewrite lookup_drop. by replace (i + (k - i)) with k by lia.
    - lia.
    - intros j' Hj'. by left. }
  split; [exact Hexec|].
  intros a w r h params k m Hm Hk Hno.
  assert (∀ j, Invoked j ∈ trace (ServeHTTP a w r) → (j ≤ k)%nat) as Hle.
  { intros j Hj. unfold ServeHTTP in Hj. rewrite Hm in Hj. cbv zeta in Hj.
    apply (Hexec _ k m) in Hj as [Hj | Hj]; try done.
    - by apply newContext_no_Invoked in Hj.
    - apply lookup_app_l_Some. exact Hk.
    - lia. }
  split; [exact Hle|].
  unfold terminal_runs.
  assert (count_occ Event_eq_dec (trace (ServeHTTP a w r))
            (Invoked (length (middleware a))) = 0) as ->.
  { apply count_occ_not_In. intros Hin. apply list_elem_of_In in Hin.
    apply Hle in Hin. apply lookup_lt_Some in Hk. lia. }
  unfold ServeHTTP, exec. rewrite Hm. cbv zeta.
  apply exec_from_no_NotFound.
  unfold newContext. cbn. by destruct (Cancelled r).
Qed.

(** The hypotheses of X2 at an application whose only middleware answers
    by itself. *)
Lemma no_continuation_halts_chain_witness :
  terminal_runs 1 (trace (ServeHTTP app_short_circuit []
     {| Method := "GET"; Path := "/private"; Cancelled := false |})) = 0.
Proof.
  refine (proj2 (proj2 no_continuation_halts_chain app_short_circuit []
     {| Method := "GET"; Path := "/private"; Cancelled := false |}
     (Mark "handler" Ret) ∅ 0 (DoWriteHeader 401 Ret) _ _ _)).
  - vm_compute. reflexivity.
  - reflexivity.
  - repeat constructor.
Defined.

(** ** The request-scoped store *)

(** X3.  The store reads back what was last set under a key: reading
    from the store that was never written finds nothing; after [Set] the
    key reads the value set, the other keys read what they read before,
    and a second [Set] under the same key replaces the first. *)
Theorem store_last_write_wins (V : Type) :
  (∀ key, Context_Get (None : option (gmap string V)) key = None) ∧
  (∀ (st : option (gmap string V)) key v,
     Context_Get (Context_Set st key v) key = Some v) ∧
  (∀ (st : option (gmap string V)) key key' v,
     key ≠ key' → Context_Get (Context_Set st key v) key' = Context_Get st key') ∧
  (∀ (st : option (gmap string V)) key v1 v2,
     Context_Set (Context_Set st key v1) key v2 = Context_Set st key v2).
Proof.
  repeat split.
  - intros st key v. cbn. apply lookup_insert_eq.
  - intros st key key' v Hne. cbn. rewrite lookup_insert_ne by done.
    destruct st; cbn; [done | apply lookup_empty].
  - intros st key v1 v2. unfold Context_Set. cbn. by rewrite insert_insert_eq.
Qed.

(** The hypothesis of X3 at two different keys. *)
Lemma store_last_write_wins_witness :
  Context_Get (Context_Set (Context_Set None "user" 7) "role" 1) "user" = Some 7.
Proof.
  rewrite (proj1 (proj2 (proj2 (store_last_write_wins nat)))
             (Context_Set None "user" 7) "role" "user" 1).
  - exact (proj1 (proj2 (store_last_write_wins nat)) None "user" 7).
  - discriminate.
Defined.

(** ** Registering routes *)

Lemma matchRoutes_snoc rs rt path :
  matchRoutes (rs ++ [rt]) path =
    if anyMatches rs path then matchRoutes rs path
    else match matchPattern (pattern rt) path with
         | Some params => (handler rt, params)
         | None => (None, ∅)
         end.
Proof.
  induction rs as [|x rs IH]; [done|].
  cbn [app matchRoutes anyMatches existsb].
  destruct (matchPattern (pattern x) path) as [ps|] eqn:Hx.
  - rewrite bool_decide_eq_true_2 by eauto. done.
  - rewrite bool_decide_eq_false_2 by (by intros [? ?]). exact IH.
Qed.

Lemma matchRoute_addRoute_same a method pat h path :
  matchRoute (router (addRoute a method pat h)) method path =
    if anyMatches (default [] (routes (router a) !! method)) path
    then matchRoute (router a) method path
    else match matchPattern pat path with
         | Some params => (h, params)
         | None => (None, ∅)
         end.
Proof.
  unfold matchRoute, addRoute. cbn [router routes].
  rewrite lookup_insert_eq. change (default [] (Some ?l)) with l.
  by rewrite matchRoutes_snoc.
Qed.

(** X4.  Registering a route appends it to the routes of its method:
    a request of that method that some route registered before matches
    gets what it got before, and any other gets the new handler with the
    parameters of the new pattern when that pattern matches, and nothing
    when it does not. *)
Theorem addRoute_appends a method pat h path :
  matchRoute (router (addRoute a method pat h)) method path =
    if anyMatches (default [] (routes (router a) !! method)) path
    then matchRoute (router a) method path
    else match matchPattern pat path with
         | Some params => (h, params)
         | None => (None, ∅)
         end.
Proof. apply matchRoute_addRoute_same. Qed.

Lemma addRoute_other_method a method pat h method' path :
  method ≠ method' →
  matchRoute (router (addRoute a method pat h)) method' path =
    matchRoute (router a) method' path.
Proof.
  intros Hne. unfold matchRoute, addRoute. cbn [router routes].
  by rewrite lookup_insert_ne.
Qed.

(** X5.  Routes are kept by method: registering a route under one method
    string leaves the result of every request of another method as it
    was, so a route registered with one of [GET], [POST], [PUT],
    [DELETE], [PATCH], [OPTIONS], [HEAD] is never reached by a request of
    another method; and [Use] does not touch the routes. *)
Theorem routes_are_kept_by_method :
  (∀ a method pat h method' path,
     method ≠ method' →
     matchRoute (router (addRoute a method pat h)) method' path =
       matchRoute (router a) method' path) ∧
  (∀ verb register method' a pat h path,
     (verb, register) ∈ verbs → verb ≠ method' →
     matchRoute (router (register a pat h)) method' path =
       matchRoute (router a) method' path) ∧
  (∀ a mw method path,
     matchRoute (router (Use a mw)) method path = matchRoute (router a) method path).
Proof.
  split; [exact addRoute_other_method|]. split; [|done].
  intros verb register method' a pat h path Hin Hne.
  unfold verbs in Hin.
  repeat (apply elem_of_cons in Hin as [Hin | Hin];
          [injection Hin as -> ->; by apply addRoute_other_method|]).
  by apply elem_of_nil in Hin.
Qed.

(** The hypotheses of X5 at a route registered with [PUT] and a [GET]
    request. *)
Lemma routes_are_kept_by_method_witness :
  matchRoute (router (PUT New "/users/:id" Ret)) "GET" "/users/42" = (None, ∅).
Proof.
  rewrite (proj1 (proj2 routes_are_kept_by_method) "PUT" PUT "GET" New
             "/users/:id" Ret "/users/42").
  - reflexivity.
  - unfold verbs. do 2 right. left.
  - discriminate.
Defined.

(** ** What [splitPath] keeps and drops *)

Section SplitFacts.

Variable sep : ascii.

Lemma Split_nonempty s : Strings.Split s sep ≠ [].
Proof.
  destruct s as [|a r]; cbn; [done|].
  destruct (Ascii.eqb a sep); [done|]. by destruct (Strings.Split r sep).
Qed.

Lemma Split_no_sep s seg :
  seg ∈ Strings.Split s sep → contains_char sep seg = false.
Proof.
  revert seg. induction s as [|a r IH]; intros seg Hin; cbn in Hin.
  - apply list_elem_of_singleton in Hin as ->. done.
  - destruct (Ascii.eqb a sep) eqn:Ha.
    + apply elem_of_cons in Hin as [-> | Hin]; [done | by apply IH].
    + destruct (Strings.Split r sep) as [|h t] eqn:Hr.
      * apply list_elem_of_singleton in Hin as ->. cbn. by rewrite Ha.
      * apply elem_of_cons in Hin as [-> | Hin].
        -- cbn. rewrite Ha. cbn. apply IH. by left.
        -- apply IH. by right.
Qed.

Lemma concat_cons2 (x y : string) (l : list string) :
  String.concat (String sep EmptyString) (x :: y :: l) =
    x +:+ String sep EmptyString +:+ String.concat (String sep EmptyString) (y :: l).
Proof. reflexivity. Qed.

Lemma concat_Split s :
  String.concat (String sep EmptyString) (Strings.Split s sep) = s.
Proof.
  induction s as [|a r IH]; [done|]. cbn [Strings.Split].
  pose proof (Split_nonempty r) as Hne.
  destruct (Ascii.eqb a sep) eqn:Ha.
  - apply Ascii.eqb_eq in Ha as ->.
    destruct (Strings.Split r sep) as [|h t]; [done|].
    rewrite concat_cons2, IH. reflexivity.
  - destruct (Strings.Split r sep) as [|h t]; [done|].
    destruct t as [|h' t].
    + cbn in *. by rewrite IH.
    + rewrite concat_cons2 in *. by rewrite <- IH.
Qed.

Lemma TrimLeft_only s :
  only_char sep (Strings.TrimLeft s sep) = only_char sep s.
Proof.
  induction s as [|a r IH]; [done|]. cbn.
  destruct (Ascii.eqb a sep) eqn:Ha; [exact IH|]. cbn. by rewrite Ha.
Qed.

Lemma TrimLeft_head s a r :
  Strings.TrimLeft s sep = String a r → Ascii.eqb a sep = false.
Proof.
  induction s as [|b t IH]; [done|]. cbn.
  destruct (Ascii.eqb b sep) eqn:Hb; [exact IH|]. by intros [= <- <-].
Qed.

Lemma TrimRight_empty s :
  Strings.TrimRight s sep = EmptyString ↔ only_char sep s = true.
Proof.
  induction s as [|a r IH]; [done|]. cbn.
  destruct (Ascii.eqb a sep); cbn.
  - destruct (Strings.TrimRight r sep) eqn:Hr; cbn.
    + split; [intros _; by apply IH | done].
    + split; [done|]. intros H. apply IH in H. done.
  - done.
Qed.

Lemma Trim_empty s :
  Strings.Trim s sep = EmptyString ↔ only_char sep s = true.
Proof.
  unfold Strings.Trim. rewrite TrimRight_empty. by rewrite TrimLeft_only.
Qed.

End SplitFacts.

Lemma splitPath_nil p : splitPath p = [] ↔ only_char "/" p = true.
Proof.
  unfold splitPath. rewrite <- Trim_empty.
  destruct (String.eqb_spec (Strings.Trim p "/") EmptyString) as [Heq|Hne].
  - done.
  - split; [|done]. intros H. by apply Split_nonempty in H.
Qed.

(** X6.  Splitting a path loses nothing but the separators at its ends: a
    path made of separators only (or empty) has no segments, and for any
    other path joining the segments with the separator gives back the
    path without its leading and trailing separators. *)
Theorem splitPath_lossless p :
  (splitPath p = [] ↔ only_char "/" p = true) ∧
  (only_char "/" p = false →
     String.concat "/" (splitPath p) = Strings.Trim p "/").
Proof.
  split; [apply splitPath_nil|].
  intros Hp. unfold splitPath.
  destruct (String.eqb_spec (Strings.Trim p "/") EmptyString) as [Heq|Hne].
  - apply Trim_empty in Heq. congruence.
  - apply concat_Split.
Qed.

(** The hypothesis of X6 at a path with separators at both ends. *)
Lemma splitPath_lossless_witness :
  String.concat "/" (splitPath "//users/42/") = "users/42".
Proof.
  exact (proj2 (splitPath_lossless "//users/42/") eq_refl).
Defined.

Lemma splitPath_no_slash p seg :
  seg ∈ splitPath p → contains_char "/" seg = false.
Proof.
  unfold splitPath. destruct (String.eqb _ _).
  - intros Hin. by apply elem_of_nil in Hin.
  - apply Split_no_sep.
Qed.

Lemma contains_char_from1 c s :
  contains_char c s = false → contains_char c (Strings.from1 s) = false.
Proof.
  destruct s as [|a r]; [done|]. cbn. by intros [_ ?]%orb_false_iff.
Qed.

Lemma matchPattern_Some_length pat path params :
  matchPattern pat path = Some params →
  length (splitPath pat) = length (splitPath path).
Proof.
  unfold matchPattern.
  destruct (Nat.eqb_spec (length (splitPath pat)) (length (splitPath path))); done.
Qed.

(** X7.  No segment of a split path contains the separator, and so
    neither the name nor the value of a parameter that the matcher binds
    does. *)
Theorem segments_and_params_have_no_separator :
  (∀ p seg, seg ∈ splitPath p → contains_char "/" seg = false) ∧
  (∀ pat path params k v,
     matchPattern pat path = Some params →
     params !! k = Some v →
     contains_char "/" k = false ∧ contains_char "/" v = false).
Proof.
  split; [exact splitPath_no_slash|].
  intros pat path params k v Hm Hkv.
  pose proof (matchPattern_Some_length _ _ _ Hm) as Hlen.
  rewrite (matchPattern_spec _ _ Hlen) in Hm.
  destruct (forallb _ _); [|done]. injection Hm as <-.
  unfold bindAll in Hkv.
  apply foldl_bindSegment_origin in Hkv as [Hkv | (i & p & Hp & Hq & _ & <-)].
  - by rewrite lookup_empty in Hkv.
  - split.
    + apply contains_char_from1, (splitPath_no_slash pat).
      apply list_elem_of_lookup. eauto.
    + apply (splitPath_no_slash path). apply list_elem_of_lookup. eauto.
Qed.

(** The hypotheses of X7 at [/users/:id] and [/users/42]. *)
Lemma segments_and_params_have_no_separator_witness :
  contains_char "/" "id" = false ∧ contains_char "/" "42" = false.
Proof.
  refine (proj2 segments_and_params_have_no_separator
            "/users/:id" "/users/42" {[ "id" := "42" ]} "id" "42" _ _).
  - vm_compute. reflexivity.
  - vm_compute. reflexivity.
Defined.

(** ** Patterns without parameters *)

Lemma walkParts_literal ps qs m :
  Forall (λ seg, isParam seg = false) ps →
  length ps = length qs →
  walkParts ps qs m = if decide (ps = qs) then Some m else None.
Proof.
  intros Hps. revert qs.
  induction Hps as [|p ps Hp _ IH]; intros [|q qs] Hlen; try done.
  injection Hlen as Hlen. cbn [walkParts].
  unfold isParam in Hp. rewrite Hp.
  destruct (String.eqb_spec p q) as [->|Hne]; cbn [negb].
  - rewrite IH by done. repeat case_decide; congruence.
  - case_decide; congruence.
Qed.

(** X8.  A pattern none of whose segments begins with [:] matches exactly
    the paths that split into the same segments, and binds nothing; so
    the root pattern matches exactly the paths made of separators only. *)
Theorem literal_pattern_matches_exactly :
  (∀ pat path,
     Forall (λ seg, isParam seg = false) (splitPath pat) →
     matchPattern pat path =
       if decide (splitPath pat = splitPath path) then Some ∅ else None) ∧
  (∀ pat path,
     only_char "/" pat = true →
     matchPattern pat path = if only_char "/" path then Some ∅ else None).
Proof.
  assert (∀ pat path,
     Forall (λ seg, isParam seg = false) (splitPath pat) →
     matchPattern pat path =
       if decide (splitPath pat = splitPath path) then Some ∅ else None) as Hlit.
  { intros pat path Hlit. unfold matchPattern.
    destruct (Nat.eqb_spec (length (splitPath pat)) (length (splitPath path)))
      as [Hlen|Hlen]; cbn [negb].
    - by apply walkParts_literal.
    - case_decide; [congruence | done]. }
  split; [exact Hlit|].
  intros pat path Hpat. apply splitPath_nil in Hpat.
  rewrite Hlit by (rewrite Hpat; constructor). rewrite Hpat.
  destruct (only_char "/" path) eqn:Hpath.
  - apply splitPath_nil in Hpath. by rewrite Hpath, decide_True.
  - rewrite decide_False; [done|]. intros Heq. symmetry in Heq.
    apply splitPath_nil in Heq. congruence.
Qed.

(** The hypothesis of X8 at a pattern of two literal segments. *)
Lemma literal_pattern_matches_exactly_witness :
  matchPattern "/api/health" "api/health/" = Some ∅.
Proof.
  rewrite (proj1 literal_pattern_matches_exactly "/api/health" "api/health/").
  - reflexivity.
  - repeat constructor.
Defined.

(** ** Wrapping a handler with middleware *)

Lemma call_ext h next1 next2 s :
  (∀ s', next1 s' = next2 s') → call h next1 s = call h next2 s.
Proof.
  intros Hnext. revert s.
  induction h as [|k IH|k IH|code k IH|b k IH|m k IH|k IH|k IH];
    intros s; cbn; rewrite ?Hnext; eauto.
Qed.

Lemma WithMiddleware_exec_ext l next1 next2 s :
  (∀ s', next1 s' = next2 s') →
  WithMiddleware_exec l next1 s = WithMiddleware_exec l next2 s.
Proof.
  intros Hnext. revert s. induction l as [|h l IH]; intros s; cbn; [done|].
  apply call_ext. exact IH.
Qed.

Lemma WithMiddleware_exec_app l1 l2 next s :
  WithMiddleware_exec (l1 ++ l2) next s =
    WithMiddleware_exec l1 (WithMiddleware_exec l2 next) s.
Proof.
  revert s. induction l1 as [|h l1 IH]; intros s; [done|].
  cbn. apply call_ext. exact IH.
Qed.

Lemma call_ext_exec l next s :
  WithMiddleware_exec l (λ s', next s') s = WithMiddleware_exec l next s.
Proof. reflexivity. Qed.

Lemma call_andThen u v next s :
  call (andThen u v) next s = call v next (call u next s).
Proof.
  revert s. induction u as [|k IH|k IH|code k IH|b k IH|m k IH|k IH|k IH];
    intros s; cbn; eauto.
Qed.

Lemma call_plug m rest next s :
  call (plug m rest) next s = call m (call rest next) s.
Proof.
  revert s. induction m as [|k IH|k IH|code k IH|b k IH|m' k IH|k IH|k IH];
    intros s; cbn; rewrite ?call_andThen; eauto.
Qed.

Lemma call_foldr_plug l next s :
  call (foldr plug (CallNext Ret) l) next s = WithMiddleware_exec l next s.
Proof.
  revert s. induction l as [|h l IH]; intros s; [done|].
  cbn [foldr WithMiddleware_exec]. rewrite call_plug. apply call_ext. exact IH.
Qed.

Lemma call_WithMiddleware h ms next s :
  call (WithMiddleware h ms) next s = WithMiddleware_call h ms next s.
Proof. apply call_foldr_plug. Qed.

(** X9.  The handler [WithMiddleware] returns runs the middleware in
    order around the handler, each continuation being the rest of the
    list and the last the continuation the wrapper was called with.  With
    no middleware it acts as the handler alone; with a first middleware
    [m] it acts as [m] continued by the wrapping in the others; and
    wrapping in two steps acts as wrapping once in the two lists put
    together. *)
Theorem WithMiddleware_composes :
  (∀ h ms next s,
     call (WithMiddleware h ms) next s = WithMiddleware_call h ms next s) ∧
  (∀ h next s, call (WithMiddleware h []) next s = call h next s) ∧
  (∀ h m ms next s,
     call (WithMiddleware h (m :: ms)) next s =
       call m (call (WithMiddleware h ms) next) s) ∧
  (∀ h ms1 ms2 next s,
     call (WithMiddleware (WithMiddleware h ms2) ms1) next s =
       call (WithMiddleware h (ms1 ++ ms2)) next s).
Proof.
  split; [exact call_WithMiddleware|]. split; [|split].
  - intros h next s. rewrite call_WithMiddleware. reflexivity.
  - intros h m ms next s. rewrite call_WithMiddleware.
    cbn. apply call_ext. intros s'. by rewrite call_WithMiddleware.
  - intros h ms1 ms2 next s. rewrite !call_WithMiddleware.
    unfold WithMiddleware_call. rewrite <- app_assoc.
    rewrite !WithMiddleware_exec_app. apply WithMiddleware_exec_ext. intros s'.
    cbn [WithMiddleware_exec]. rewrite call_WithMiddleware.
    unfold WithMiddleware_call. apply call_ext_exec.
Qed.

Lemma WithMiddleware_exec_nested bas hm cs next s :
  WithMiddleware_exec (map around bas ++ [Mark hm (respond cs)]) next s =
    {| ctx := with_Writer (ctx s) (apply_calls (Writer (ctx s)) cs);
       trace := trace s ++ map Marked (bas.*1 ++ [hm] ++ rev bas.*2) |}.
Proof.
  revert s. induction bas as [|[b a] bas IH]; intros s.
  - cbn [map app WithMiddleware_exec call]. rewrite call_respond.
    unfold on_writer, on_ctx, emit. cbn. done.
  - cbn [map app WithMiddleware_exec around call fst snd].
    rewrite IH. unfold emit. cbn. f_equal.
    rewrite !map_app. cbn. rewrite !map_app. cbn.
    rewrite <- !app_assoc. cbn. rewrite <- ?app_assoc. reflexivity.
Qed.

(** X10.  The chain of [WithMiddleware] reads neither the stopped flag
    nor the cancellation signal: whatever the state it is called in, set
    flag and fired signal included, middleware that leave a marker, call
    the continuation and leave a second marker run nested around the
    handler; and the handler runs although a middleware before it has
    called [Stop]. *)
Theorem WithMiddleware_ignores_flags :
  (∀ bas hm cs next s,
     WithMiddleware_call (Mark hm (respond cs)) (map around bas) next s =
       {| ctx := with_Writer (ctx s) (apply_calls (Writer (ctx s)) cs);
          trace := trace s ++ map Marked (bas.*1 ++ [hm] ++ rev bas.*2) |}) ∧
  (∀ h ms next s,
     WithMiddleware_call h (CallStop (CallNext Ret) :: ms) next s =
       WithMiddleware_call h ms next (emit StopSet (on_ctx Stop s))).
Proof.
  split; [|done].
  intros bas hm cs next s. apply WithMiddleware_exec_nested.
Qed.

(** ** Runs that cannot be told apart *)

Section Observation.

Implicit Types (s : State) (h : HandlerFunc).

Lemma markers_snoc t e :
  markers (t ++ [e]) =
    markers t ++ match e with Marked m => [m] | _ => [] end.
Proof. unfold markers. rewrite omap_app. by destruct e. Qed.

Lemma same_obs_refl s : same_obs s s.
Proof. done. Qed.

Lemma same_obs_emit s1 s2 e :
  same_obs s1 s2 → same_obs (emit e s1) (emit e s2).
Proof. intros [Hc Hm]. split; cbn; [done|]. by rewrite !markers_snoc, Hm. Qed.

Lemma same_obs_emit_l s1 s2 e :
  (∀ m, e ≠ Marked m) → same_obs s1 s2 → same_obs (emit e s1) s2.
Proof.
  intros He [Hc Hm]. split; cbn; [done|].
  rewrite markers_snoc, Hm. destruct e; rewrite ?app_nil_r; try done.
  by destruct (He m).
Qed.

Lemma same_obs_on_ctx s1 s2 f :
  same_obs s1 s2 → same_obs (on_ctx f s1) (on_ctx f s2).
Proof. intros [Hc Hm]. split; cbn; [by rewrite Hc | done]. Qed.

Lemma same_obs_fire s1 s2 :
  same_obs s1 s2 → same_obs (fire s1) (fire s2).
Proof.
  intros H. unfold fire. destruct H as [Hc Hm]. rewrite Hc.
  destruct (Done (ctx s2)); [done|].
  apply same_obs_emit, same_obs_on_ctx. done.
Qed.

(** A handler called on states that agree, with continuations that keep
    them agreeing, leaves them agreeing. *)
Lemma call_same_obs h next1 next2 :
  (∀ s1 s2, same_obs s1 s2 → same_obs (next1 s1) (next2 s2)) →
  ∀ s1 s2, same_obs s1 s2 → same_obs (call h next1 s1) (call h next2 s2).
Proof.
  intros Hnext.
  induction h as [|k IH|k IH|code k IH|b k IH|m k IH|k IH|k IH];
    intros s1 s2 H; cbn [call].
  - done.
  - by apply IH, Hnext.
  - by apply IH, same_obs_emit, same_obs_on_ctx.
  - by apply IH, same_obs_on_ctx.
  - by apply IH, same_obs_on_ctx.
  - by apply IH, same_obs_emit.
  - by apply IH, same_obs_fire.
  - destruct H as [Hc Hm]. rewrite Hc. by apply IH.
Qed.

(** The index the executor starts at is not observable. *)
Lemma exec_from_same_obs rest i j s1 s2 :
  same_obs s1 s2 → same_obs (exec_from rest i s1) (exec_from rest j s2).
Proof.
  revert i j s1 s2. induction rest as [|h rest IH]; intros i j s1 s2 H;
    cbn [exec_from]; pose proof H as [Hc Hm]; rewrite Hc.
  - destruct (Done (ctx s2)); [by apply same_obs_on_ctx | done].
  - destruct (Done (ctx s2)); [by apply same_obs_on_ctx|].
    destruct (Stopped (ctx s2)); cbn [negb]; [done|].
    apply call_same_obs; [intros; by apply IH|].
    split; cbn; [done|]. by rewrite !markers_snoc, Hm.
Qed.

(** A middleware that only calls its continuation is not observable. *)
Lemma exec_from_pass_through pre post i j s1 s2 :
  same_obs s1 s2 →
  same_obs (exec_from (pre ++ CallNext Ret :: post) i s1)
           (exec_from (pre ++ post) j s2).
Proof.
  revert i j s1 s2. induction pre as [|h pre IH]; intros i j s1 s2 H.
  - cbn [app exec_from call]. pose proof H as [Hc Hm].
    destruct (Done (ctx s1)) eqn:Hd.
    + rewrite exec_from_done by congruence. by apply same_obs_on_ctx.
    + destruct (Stopped (ctx s1)) eqn:Hst; cbn [negb].
      * rewrite exec_from_stopped by congruence.
        rewrite <- Hc, Hd. done.
      * apply exec_from_same_obs. by apply same_obs_emit_l.
  - cbn [app exec_from]. pose proof H as [Hc Hm]. rewrite Hc.
    destruct (Done (ctx s2)); [by apply same_obs_on_ctx|].
    destruct (Stopped (ctx s2)); cbn [negb]; [done|].
    apply call_same_obs; [intros; by apply IH|].
    split; cbn; [done|]. by rewrite !markers_snoc, Hm.
Qed.

End Observation.

Lemma ServeHTTP_pass_through a pre post w r :
  middleware a = pre ++ CallNext Ret :: post →
  same_obs (ServeHTTP a w r)
           (ServeHTTP {| router := router a;
                         middleware := pre ++ post;
                         NotFoundHandler := NotFoundHandler a |} w r).
Proof.
  intros Hmw. unfold ServeHTTP, exec. cbn [router middleware NotFoundHandler].
  destruct (matchRoute _ _ _) as [[h|] params]; [|done].
  cbv zeta. rewrite Hmw. change (drop 0 ?l) with l.
  rewrite <- !app_assoc. cbn [app].
  apply exec_from_pass_through. done.
Qed.

(** X11.  The middleware that [Group.Use] registers is not observable on
    a request whose path does not begin with the prefix of the group:
    wherever it stands among the middleware, the context at the end of
    the dispatch and the markers left are those of the application
    without it.  On a request whose path begins with the prefix it is the
    middleware of the group itself. *)
Theorem group_middleware_outside_prefix :
  (∀ a pre post p mw w r,
     middleware a = pre ++ groupGuard p mw (Path r) :: post →
     Strings.HasPrefix (Path r) p = false →
     same_obs (ServeHTTP a w r)
              (ServeHTTP {| router := router a;
                            middleware := pre ++ post;
                            NotFoundHandler := NotFoundHandler a |} w r)) ∧
  (∀ g mw w r,
     Strings.HasPrefix (Path r) (Group_prefix g) = false →
     same_obs (ServeHTTP (Group_app (Group_Use g mw (Path r))) w r)
              (ServeHTTP (Group_app g) w r)) ∧
  (∀ g mw path,
     Strings.HasPrefix path (Group_prefix g) = true →
     Group_app (Group_Use g mw path) = Use (Group_app g) mw).
Proof.
  split; [|split].
  - intros a pre post p mw w r Hmw Hp. apply ServeHTTP_pass_through.
    rewrite Hmw. unfold groupGuard. by rewrite Hp.
  - intros g mw w r Hp.
    pose proof (ServeHTTP_pass_through
                  (Group_app (Group_Use g mw (Path r)))
                  (middleware (Group_app g)) [] w r) as H.
    cbn [Group_Use Group_app Use middleware router NotFoundHandler] in H.
    unfold groupGuard in H. rewrite Hp in H. specialize (H eq_refl).
    rewrite app_nil_r in H.
    cbn [Group_Use Group_app]. unfold groupGuard. rewrite Hp.
    by destruct (Group_app g).
  - intros g mw path Hp. cbn. unfold groupGuard. by rewrite Hp.
Qed.

(** The hypotheses of X11 at a group [/api] and a request for [/health]. *)
Lemma group_middleware_outside_prefix_witness :
  same_obs
    (ServeHTTP (Group_app (Group_Use (App_Group (GET New "/health" (Mark "ok" Ret)) "/api")
                                     (DoWriteHeader 401 Ret) "/health"))
               [] {| Method := "GET"; Path := "/health"; Cancelled := false |})
    (ServeHTTP (GET New "/health" (Mark "ok" Ret))
               [] {| Method := "GET"; Path := "/health"; Cancelled := false |}).
Proof.
  exact (proj1 (proj2 group_middleware_outside_prefix)
           (App_Group (GET New "/health" (Mark "ok" Ret)) "/api")
           (DoWriteHeader 401 Ret) []
           {| Method := "GET"; Path := "/health"; Cancelled := false |} eq_refl).
Defined.

(** ** Wrapped middleware and global middleware *)

Section QuietRuns.

(** The two runs agree and, on the side of the chain executor, neither
    the stopped flag nor the cancellation signal is set. *)
Let agree (s1 s2 : State) : Prop :=
  same_obs s1 s2 ∧ Done (ctx s1) = false ∧ Stopped (ctx s1) = false.

Lemma call_quiet_agree h next1 next2 :
  quiet h →
  (∀ s1 s2, agree s1 s2 → agree (next1 s1) (next2 s2)) →
  ∀ s1 s2, agree s1 s2 → agree (call h next1 s1) (call h next2 s2).
Proof.
  intros Hq Hnext.
  induction Hq as [|k _ IH|code k _ IH|b k _ IH|m k _ IH|k _ IH];
    intros s1 s2 (H & Hd & Hst); cbn [call].
  - done.
  - by apply IH, Hnext.
  - apply IH. split; [by apply same_obs_on_ctx | done].
  - apply IH. split; [by apply same_obs_on_ctx | done].
  - apply IH. split; [by apply same_obs_emit | done].
  - destruct H as [Hc Hm]. rewrite Hc. by apply IH.
Qed.

Lemma exec_from_WithMiddleware_exec rest next2 :
  Forall quiet rest →
  (∀ s1 s2, agree s1 s2 → agree s1 (next2 s2)) →
  ∀ i s1 s2, agree s1 s2 →
    agree (exec_from rest i s1) (WithMiddleware_exec rest next2 s2).
Proof.
  intros Hrest Hnext.
  induction Hrest as [|h rest Hh _ IH]; intros i s1 s2 H;
    pose proof H as (Hobs & Hd & Hst); cbn [exec_from WithMiddleware_exec];
    rewrite Hd.
  - by apply Hnext.
  - rewrite Hst. cbn [negb].
    apply call_quiet_agree; [done | intros; by apply IH |].
    split; [|done]. by apply same_obs_emit_l.
Qed.

Lemma exec_quiet_chain ms h s :
  Forall quiet ms → quiet h →
  Done (ctx s) = false → Stopped (ctx s) = false →
  same_obs (exec (ms ++ [h]) 0 s) (exec [WithMiddleware h ms] 0 s).
Proof.
  intros Hms Hh Hd Hst. unfold exec. change (drop 0 ?l) with l.
  cbn [exec_from]. rewrite Hd, Hst. cbn [negb].
  rewrite call_WithMiddleware. unfold WithMiddleware_call.
  apply (exec_from_WithMiddleware_exec (ms ++ [h]) (exec_from [] 1)).
  - apply Forall_app. split; [done|]. by constructor.
  - intros s1 s2 (Hobs & Hd1 & Hst1). cbn [exec_from].
    destruct Hobs as [Hc Hm]. rewrite <- Hc, Hd1. done.
  - split; [|done]. split; cbn; [done|]. by rewrite markers_snoc, app_nil_r.
Qed.

End QuietRuns.

(** X12.  When no handler sets the stopped flag and the cancellation
    signal does not fire, wrapping a route's handler with
    [WithMiddleware] cannot be told apart from registering the same
    middleware with [Use]: the context at the end of the dispatch and the
    markers left are the same. *)
Theorem WithMiddleware_like_global_middleware :
  (∀ ms h s,
     Forall quiet ms → quiet h →
     Done (ctx s) = false → Stopped (ctx s) = false →
     same_obs (exec (ms ++ [h]) 0 s) (exec [WithMiddleware h ms] 0 s)) ∧
  (∀ a a' w r h ms params,
     matchRoute (router a) (Method r) (Path r) = (Some h, params) →
     matchRoute (router a') (Method r) (Path r) = (Some (WithMiddleware h ms), params) →
     middleware a = ms → middleware a' = [] →
     Forall quiet ms → quiet h →
     Cancelled r = false →
     same_obs (ServeHTTP a w r) (ServeHTTP a' w r)).
Proof.
  split; [exact exec_quiet_chain|].
  intros a a' w r h ms params Hm Hm' Hmw Hmw' Hms Hh Hc.
  unfold ServeHTTP. rewrite Hm, Hm', Hmw, Hmw'. cbv zeta. cbn [app].
  apply exec_quiet_chain; done.
Qed.

(** The hypotheses of X12 at a route behind one middleware, registered
    the two ways. *)
Lemma WithMiddleware_like_global_middleware_witness :
  same_obs
    (ServeHTTP (GET (Use New (around ("in", "out"))) "/secure" (Mark "granted" Ret))
               [] {| Method := "GET"; Path := "/secure"; Cancelled := false |})
    (ServeHTTP (GET New "/secure"
                    (WithMiddleware (Mark "granted" Ret) [around ("in", "out")]))
               [] {| Method := "GET"; Path := "/secure"; Cancelled := false |}).
Proof.
  refine (proj2 WithMiddleware_like_global_middleware
            (GET (Use New (around ("in", "out"))) "/secure" (Mark "granted" Ret))
            (GET New "/secure"
                 (WithMiddleware (Mark "granted" Ret) [around ("in", "out")]))
            [] {| Method := "GET"; Path := "/secure"; Cancelled := false |}
            (Mark "granted" Ret) [around ("in", "out")] ∅ _ _ _ _ _ _ _).
  - vm_compute. reflexivity.
  - vm_compute. reflexivity.
  - reflexivity.
  - reflexivity.
  - repeat constructor.
  - repeat constructor.
  - reflexivity.
Defined.

(** ** A doubled leading separator *)

Lemma splitPath_leading_slash p : splitPath ("/" +:+ p) = splitPath p.
Proof. reflexivity. Qed.





(** ** Setting the not-found handler *)

(** X14.  [SetNotFoundHandler] changes nothing for a request that
    matches a route.  For a request that matches none, the handler set is
    called with a continuation that does nothing, and when nil was set
    the transport answers 404 past the wrapper: no handler is called and
    the wrapper still reports that nothing was written. *)
Theorem SetNotFoundHandler_only_for_unmatched :
  (∀ a nf w r h params,
     matchRoute (router a) (Method r) (Path r) = (Some h, params) →
     ServeHTTP (SetNotFoundHandler a nf) w r = ServeHTTP a w r) ∧
  (∀ a nf w r,
     (matchRoute (router a) (Method r) (Path r)).1 = None →
     ServeHTTP (SetNotFoundHandler a (Some nf)) w r =
       call nf (λ s, s) (emit InvokedNotFound (newContext w r))) ∧
  (∀ a w r,
     (matchRoute (router a) (Method r) (Path r)).1 = None →
     let s := ServeHTTP (SetNotFoundHandler a None) w r in
     inner (Writer (ctx s)) =
       w ++ [SinkWriteHeader 404;
             SinkWrite ("404 page not found" +:+ String (ascii_of_nat 10) EmptyString)] ∧
     Written (Writer (ctx s)) = false ∧
     Status (Writer (ctx s)) = 0%Z ∧
     invocations (trace s) = []).
Proof.
  split; [|split].
  - intros a nf w r h params Hm. unfold ServeHTTP.
    cbn [SetNotFoundHandler router middleware]. by rewrite Hm.
  - intros a nf w r Hm. unfold ServeHTTP. cbn [SetNotFoundHandler router].
    by destruct (matchRoute _ _ _) as [[h|] params].
  - intros a w r Hm s. subst s. unfold ServeHTTP. cbn [SetNotFoundHandler router].
    destruct (matchRoute _ _ _) as [[h|] params]; [done|].
    cbn [NotFoundHandler]. unfold newContext. cbn.
    repeat split. by destruct (Cancelled r).
Qed.

(** The hypothesis of X14 at an application without routes whose
    not-found handler was set to nil. *)
Lemma SetNotFoundHandler_only_for_unmatched_witness :
  Written (Writer (ctx (ServeHTTP (SetNotFoundHandler New None) []
     {| Method := "GET"; Path := "/missing"; Cancelled := false |}))) = false.
Proof.
  exact (proj1 (proj2 (proj2 (proj2 SetNotFoundHandler_only_for_unmatched) New []
     {| Method := "GET"; Path := "/missing"; Cancelled := false |} eq_refl))).
Defined.

(** ** The default error handler *)

(** X15.  The default error handler answers only when nothing has been
    written: on a response already begun it changes nothing, otherwise it
    sends status 500 with the encoded error message.  It marks the
    response written in both cases, a second call changes nothing, and it
    changes nothing after any of [Send], [HTML], [Status], [NoContent] and
    [JSON]. *)
Theorem DefaultErrorHandler_keeps_begun_response (enc : string → string) :
  (∀ c, Written (Writer c) = true → DefaultErrorHandler enc c = c) ∧
  (∀ c, Written (Writer c) = false →
     Writer (DefaultErrorHandler enc c) =
       {| inner := inner (Writer c)
                     ++ [SinkWriteHeader 500;
                         SinkWrite (enc "An unexpected error occurred")];
          written := true;
          status := 500 |}) ∧
  (∀ c, Written (Writer (DefaultErrorHandler enc c)) = true) ∧
  (∀ c, DefaultErrorHandler enc (DefaultErrorHandler enc c)
        = DefaultErrorHandler enc c) ∧
  (∀ c code text,
     DefaultErrorHandler enc (Context_Send c code text) = Context_Send c code text ∧
     DefaultErrorHandler enc (Context_HTML c code text) = Context_HTML c code text) ∧
  (∀ c code,
     DefaultErrorHandler enc (Context_Status c code) = Context_Status c code ∧
     DefaultErrorHandler enc (Context_NoContent c) = Context_NoContent c) ∧
  (∀ c code encoded,
     DefaultErrorHandler enc (Context_JSON c code encoded) = Context_JSON c code encoded).
Proof.
  assert (∀ c, Written (Writer c) = true → DefaultErrorHandler enc c = c) as Hkeep.
  { intros c Hw. unfold DefaultErrorHandler. by rewrite Hw. }
  assert (∀ c, Written (Writer (DefaultErrorHandler enc c)) = true) as Hwritten.
  { intros c. unfold DefaultErrorHandler.
    destruct (Written (Writer c)) eqn:Hw; cbn [negb]; done. }
  split; [exact Hkeep|]. split; [|split; [exact Hwritten|split]].
  - intros c Hw. unfold DefaultErrorHandler. rewrite Hw. cbn [negb].
    unfold InternalServerError, Context_JSON, Write, WriteHeader. cbn.
    by rewrite <- app_assoc.
  - intros c. by apply Hkeep.
  - repeat split; intros; by apply Hkeep; try destruct encoded.
Qed.

(** The hypothesis of X15 at a response begun with [Send]. *)
Lemma DefaultErrorHandler_keeps_begun_response_witness :
  let c := Context_Send (ctx (newContext [] (mkRequest "GET" "/" false))) 200 "ok" in
  DefaultErrorHandler (λ m, m) c = c.
Proof.
  exact (proj1 (DefaultErrorHandler_keeps_begun_response (λ m, m))
           (Context_Send (ctx (newContext [] (mkRequest "GET" "/" false))) 200 "ok")
           eq_refl).
Defined.

(** ** The parameters during a dispatch *)

Lemma exec_from_Params rest i s params :
  Params (ctx s) = params → Params (ctx (exec_from rest i s)) = params.
Proof.
  apply (exec_from_preserves (λ s', Params (ctx s') = params)); clear; try done.
  intros s H. unfold fire. by destruct (Done (ctx s)).
Qed.

Lemma call_Params h s params :
  Params (ctx s) = params → Params (ctx (call h (λ s', s') s)) = params.
Proof.
  revert s.
  apply (call_preserves (λ s', Params (ctx s') = params)); try done.
  intros s H. unfold fire. by destruct (Done (ctx s)).
Qed.

(** X16.  The parameters of a request are set once, from the match, and
    the dispatch never changes them: at its end the context holds the
    mapping the matcher returned when a route was matched, and the empty
    mapping when the not-found path was taken. *)
Theorem Params_set_once a w r :
  Params (ctx (ServeHTTP a w r)) =
    match matchRoute (router a) (Method r) (Path r) with
    | (Some _, params) => params
    | (None, _) => ∅
    end.
Proof.
  unfold ServeHTTP.
  destruct (matchRoute _ _ _) as [[h|] params].
  - by apply exec_from_Params.
  - destruct (NotFoundHandler a) as [nf|]; [|done].
    by apply call_Params.
Qed.

(** ** What setup builds *)

Lemma setup_snoc steps st : setup (steps ++ [st]) = setup_step (setup steps) st.
Proof. unfold setup. by rewrite foldl_app. Qed.

(** X17.  An application set up from [New] by [Use] and by registering
    routes holds the middleware in the order of the calls of [Use] and,
    under each method, the routes in the order they were registered for
    it; the order between a [Use] and a registration, or between
    registrations for different methods, leaves no trace, so that a
    middleware registered after a route still runs in front of it. *)
Theorem setup_keeps_registration_order :
  (∀ steps, middleware (setup steps) = steps_middleware steps) ∧
  (∀ steps method,
     default [] (routes (router (setup steps)) !! method) = steps_routes method steps) ∧
  (∀ a mw method pat h,
     Use (addRoute a method pat h) mw = addRoute (Use a mw) method pat h).
Proof.
  split; [|split; [|done]].
  - induction steps as [|st steps IH] using rev_ind; [done|].
    rewrite setup_snoc. unfold steps_middleware in *. rewrite omap_app.
    destruct st; cbn; rewrite IH; [done | by rewrite app_nil_r].
  - intros steps method.
    induction steps as [|st steps IH] using rev_ind; [done|].
    rewrite setup_snoc. unfold steps_routes in *. rewrite omap_app.
    destruct st as [mw | m p h]; cbn.
    + rewrite IH. by rewrite app_nil_r.
    + destruct (decide (m = method)) as [->|Hne].
      * rewrite lookup_insert_eq. cbn. by rewrite IH.
      * rewrite lookup_insert_ne by done. rewrite IH. by rewrite app_nil_r.
Qed.

(** ** Patterns are normalised like paths *)

Lemma matchPattern_pattern_trailing_slash pat path :
  matchPattern (pat +:+ "/") path = matchPattern pat path.
Proof. unfold matchPattern. by rewrite splitPath_trailing_slash. Qed.

(** X18.  A pattern is split like a request path, so the separators at
    its ends do not count: a route registered with one more trailing or
    leading separator matches the same requests with the same
    parameters. *)
Theorem pattern_end_separators_ignored a method pat h method' path :
  matchRoute (router (addRoute a method (pat +:+ "/") h)) method' path =
    matchRoute (router (addRoute a method pat h)) method' path ∧
  matchRoute (router (addRoute a method ("/" +:+ pat) h)) method' path =
    matchRoute (router (addRoute a method pat h)) method' path.
Proof.
  destruct (decide (method = method')) as [<-|Hne].
  - rewrite !matchRoute_addRoute_same.
    rewrite matchPattern_pattern_trailing_slash. done.
  - by rewrite !addRoute_other_method.
Qed.

(** ** Routes of a group *)

Lemma walkParts_self ps m : is_Some (walkParts ps ps m).
Proof.
  revert m. induction ps as [|p ps IH]; intros m; cbn; [done|].
  destruct (Strings.HasPrefix p ":"); [apply IH|].
  rewrite String.eqb_refl. cbn. apply IH.
Qed.

Lemma matchPattern_self pat : is_Some (matchPattern pat pat).
Proof.
  unfold matchPattern. rewrite Nat.eqb_refl. cbn. apply walkParts_self.
Qed.

Lemma addRoute_reaches a method pat h :
  anyMatches (default [] (routes (router a) !! method)) pat = false →
  (matchRoute (router (addRoute a method pat h)) method pat).1 = h.
Proof.
  intros Hnone. rewrite matchRoute_addRoute_same, Hnone.
  by destruct (matchPattern_self pat) as [params ->].
Qed.

(** X19.  Every pattern, taken as a request path, matches itself.  So a
    route that a group registers with [GET] or [POST] answers the
    request for the prefix of the group followed by the path of the
    route, unless a route registered before for that method matches that
    request. *)
Theorem group_route_reached_under_prefix :
  (∀ pat, is_Some (matchPattern pat pat)) ∧
  (∀ g path h,
     anyMatches (default [] (routes (router (Group_app g)) !! "GET"))
                (Group_prefix g +:+ path) = false →
     (matchRoute (router (Group_app (Group_GET g path h))) "GET"
                 (Group_prefix g +:+ path)).1 = Some h) ∧
  (∀ g path h,
     anyMatches (default [] (routes (router (Group_app g)) !! "POST"))
                (Group_prefix g +:+ path) = false →
     (matchRoute (router (Group_app (Group_POST g path h))) "POST"
                 (Group_prefix g +:+ path)).1 = Some h).
Proof.
  split; [exact matchPattern_self|].
  split; intros g path h Hnone; by apply addRoute_reaches.
Qed.

(** The hypothesis of X19 at the group [/api/v1] of a new application. *)
Lemma group_route_reached_under_prefix_witness :
  (matchRoute (router (Group_app (Group_GET (App_Group New "/api/v1") "/users" Ret)))
              "GET" "/api/v1/users").1 = Some Ret.
Proof.
  exact (proj1 (proj2 group_route_reached_under_prefix)
           (App_Group New "/api/v1") "/users" Ret eq_refl).
Defined.
